(** * postcss-plugin-webp: the stylesheet transform of [src/plugin.ts]

    A shallow embedding of the plugin: the string and regular-expression
    primitives it calls, the part of the host engine's tree it touches,
    the selector transformer, the per-rule visit hook and the finalizer,
    followed by the properties of the specification. *)

From Stdlib Require Import String Ascii List Bool Arith Lia.
Import ListNotations.
Open Scope string_scope.

(** ** String primitives of the host language *)

Module JS.

(** Strings are sequences of 8-bit code units. *)

Fixpoint drop (n : nat) (s : string) : string :=
  match n, s with
  | S k, String _ s' => drop k s'
  | _, _ => s
  end.

Fixpoint take (n : nat) (s : string) : string :=
  match n, s with
  | S k, String c s' => String c (take k s')
  | _, _ => ""
  end.

(** [s.startsWith(p)]. *)
Fixpoint startsWith (s p : string) {struct p} : bool :=
  match p, s with
  | "", _ => true
  | String a p', String b s' => Ascii.eqb a b && startsWith s' p'
  | String _ _, "" => false
  end.

(** [s.indexOf(p)], [None] standing for [-1]. *)
Fixpoint indexOf (s p : string) : option nat :=
  if startsWith s p then Some 0
  else match s with
       | "" => None
       | String _ s' => option_map S (indexOf s' p)
       end.

(** [s.includes(p)]. *)
Definition includes (s p : string) : bool :=
  match indexOf s p with Some _ => true | None => false end.

(** The expansion of a replacement template when the pattern is a plain
    string (no capture groups): [$$], [$&], [$`] and [$'] are special,
    every other character, a lone [$] included, stands for itself. *)
Fixpoint getSubstitution (matched before after template : string) : string :=
  match template with
  | "" => ""
  | String c t =>
      if Ascii.eqb c "$" then
        match t with
        | String d t' =>
            if Ascii.eqb d "$" then String "$" (getSubstitution matched before after t')
            else if Ascii.eqb d "&" then matched ++ getSubstitution matched before after t'
            else if Ascii.eqb d "`" then before ++ getSubstitution matched before after t'
            else if Ascii.eqb d "'" then after ++ getSubstitution matched before after t'
            else String c (getSubstitution matched before after t)
        | "" => String c ""
        end
      else String c (getSubstitution matched before after t)
  end.

(** [s.replace(p, r)] with a string pattern: only the leftmost occurrence
    of [p] is replaced. *)
Definition replace (s p r : string) : string :=
  match indexOf s p with
  | None => s
  | Some i =>
      let before := take i s in
      let after := drop (i + String.length p) s in
      before ++ getSubstitution p before after r ++ after
  end.

(** [xs.join(sep)]. *)
Fixpoint join (sep : string) (xs : list string) : string :=
  match xs with
  | [] => ""
  | [x] => x
  | x :: rest => x ++ sep ++ join sep rest
  end.

(** *** Regular expressions

    The fragment the plugin's two literals need: characters,
    concatenation, ordered alternation and the greedy optional.  The
    matcher is the backtracking one, written with continuations: it
    returns what is left of the input after the first successful way to
    match. *)

Inductive regex : Type :=
| Chr (c : ascii)
| Cat (r1 r2 : regex)
| Alt (r1 r2 : regex)
| Opt (r : regex).

(** Case folding of the [i] flag, as far as patterns of ASCII characters
    can tell: a letter [a-z] becomes its capital and any other code unit
    is itself (the code units above 127 fold among themselves and never
    to an ASCII character). *)
Definition canonicalize (c : ascii) : ascii :=
  let n := nat_of_ascii c in
  if Nat.leb 97 n && Nat.leb n 122 then ascii_of_nat (n - 32) else c.

Definition chr_eq (ignoreCase : bool) (p c : ascii) : bool :=
  if ignoreCase then Ascii.eqb (canonicalize p) (canonicalize c)
  else Ascii.eqb p c.

Fixpoint matcher (i : bool) (r : regex) (s : string)
         (k : string -> option string) : option string :=
  match r with
  | Chr p =>
      match s with
      | String c s' => if chr_eq i p c then k s' else None
      | "" => None
      end
  | Cat r1 r2 => matcher i r1 s (fun s' => matcher i r2 s' k)
  | Alt r1 r2 =>
      match matcher i r1 s k with
      | Some rest => Some rest
      | None => matcher i r2 s k
      end
  | Opt r1 =>
      match matcher i r1 s k with
      | Some rest => Some rest
      | None => k s
      end
  end.

(** A regular expression object: its pattern and its [i] flag. *)
Record RegExp : Type := mkRegExp { source : regex; ignoreCase : bool }.

(** A match anchored at the start of [s]: what follows the match. *)
Definition matchAt (re : RegExp) (s : string) : option string :=
  matcher (ignoreCase re) (source re) s Some.

(** [re.test(s)] for a regular expression without the [g] flag: is there
    a match at some position. *)
Fixpoint test (re : RegExp) (s : string) : bool :=
  match matchAt re s with
  | Some _ => true
  | None => match s with
            | "" => false
            | String _ s' => test re s'
            end
  end.

(** [s.replace(re, r)] for a regular expression with the [g] flag and a
    replacement [r] free of [$]: the scan goes left to right; at a match
    the replacement is emitted and the scan resumes after the match (one
    code unit further when the match is empty); elsewhere the code unit
    is copied.  [skip] counts the code units of a match still to pass. *)
Fixpoint replaceFrom (re : RegExp) (r : string) (skip : nat) (s : string) : string :=
  match skip with
  | S k =>
      match s with
      | "" => ""
      | String _ s' => replaceFrom re r k s'
      end
  | 0 =>
      match matchAt re s with
      | Some rest =>
          match String.length s - String.length rest with
          | 0 => r ++ match s with
                      | "" => ""
                      | String c s' => String c (replaceFrom re r 0 s')
                      end
          | S m => r ++ match s with
                        | "" => ""
                        | String _ s' => replaceFrom re r m s'
                        end
          end
      | None =>
          match s with
          | "" => ""
          | String c s' => String c (replaceFrom re r 0 s')
          end
      end
  end.

Definition replaceAll (s : string) (re : RegExp) (r : string) : string :=
  replaceFrom re r 0 s.

(** A literal word as a pattern. *)
Fixpoint word (c : ascii) (w : string) : regex :=
  match w with
  | "" => Chr c
  | String d w' => Cat (Chr c) (word d w')
  end.

End JS.

(** ** The host engine's tree

    The plugin works on a tree the engine has already parsed.  This
    module has the tree of a plain stylesheet: rules sit at the top
    level or inside at-rule blocks, and the children of a rule are
    declarations and comments.  A rule carries its selector text and the
    list of its selectors, the list being the one that was assigned.
    Every rule object has a reference, [ref], which stands for its
    identity.  What the engine has beyond that (rules inside rules, the
    [important] flag of a declaration, the selector list split from the
    selector text at every reading) is in the module [Nested] further
    down, with the visit hook over it. *)

Module PostCSS.

Record Declaration : Type := mkDecl { prop : string; value : string }.

Inductive ChildNode : Type :=
| Decl (d : Declaration)
| Comment (text : string).

Record Rule : Type := mkRule {
  ref : nat;
  selector : string;
  selectors : list string;
  nodes : list ChildNode
}.

#[warnings="-register-all"]
Inductive Node : Type :=
| RuleNode (r : Rule)
| AtRule (name params : string) (children : list Node)
| Other (c : ChildNode).

Definition Root : Type := list Node.

(** White space as [\s] sees it among 8-bit code units. *)
Definition isSpace (c : ascii) : bool :=
  let n := nat_of_ascii c in
  Nat.leb 9 n && Nat.leb n 13 || Nat.eqb n 32 || Nat.eqb n 160.

Fixpoint spaces (s : string) : string :=
  match s with
  | String c s' => if isSpace c then String c (spaces s') else ""
  | "" => ""
  end.

(** The separator the [selectors] setter joins with: the first comma of
    the current selector text with the white space after it, and a comma
    and a space when there is none. *)
Fixpoint separator (s : string) : string :=
  match s with
  | "" => ", "
  | String c s' => if Ascii.eqb c "," then String c (spaces s') else separator s'
  end.

(** [new Rule({ selectors, nodes })] for a rule allocated at [r]. *)
Definition newRule (r : nat) (sels : list string) (decls : list Declaration) : Rule :=
  mkRule r (JS.join ", " sels) sels (map Decl decls).

(** [rule.selectors = sels]. *)
Definition setSelectors (rule : Rule) (sels : list string) : Rule :=
  mkRule (ref rule) (JS.join (separator (selector rule)) sels) sels (nodes rule).

Definition setNodes (rule : Rule) (ns : list ChildNode) : Rule :=
  mkRule (ref rule) (selector rule) (selectors rule) ns.

(** A [Map<Rule, Rule>]: keyed by the identity of the rule, iterated in
    the order the keys were first set. *)
Definition RuleMap : Type := list (nat * Rule).

Fixpoint Map_set (m : RuleMap) (k : nat) (v : Rule) : RuleMap :=
  match m with
  | [] => [(k, v)]
  | (k', v') :: m' =>
      if Nat.eqb k' k then (k', v) :: m' else (k', v') :: Map_set m' k v
  end.

(** [rule.after(v)] for the rule of reference [k]: [v] becomes the next
    sibling of that rule, wherever the rule sits in the tree. *)
Fixpoint afterNode (k : nat) (v : Rule) (n : Node) : list Node :=
  match n with
  | RuleNode r => if Nat.eqb (ref r) k then [n; RuleNode v] else [n]
  | AtRule name params children =>
      [AtRule name params (flat_map (afterNode k v) children)]
  | Other _ => [n]
  end.

Definition after (k : nat) (v : Rule) (root : Root) : Root :=
  flat_map (afterNode k v) root.

(** The references of the rules of a tree, in document order. *)
Fixpoint refsNode (n : Node) : list nat :=
  match n with
  | RuleNode r => [ref r]
  | AtRule _ _ children => flat_map refsNode children
  | Other _ => []
  end.

Definition refs (root : Root) : list nat := flat_map refsNode root.

End PostCSS.

Import JS PostCSS.

(** ** The plugin *)

Record IPluginOptions : Type := mkOptions {
  predicate : Declaration -> bool;
  rename : Declaration -> string;
  noWebpClass : string;
  webpClass : string;
  noJsClass : string;
  addNoJs : bool;
  modules : bool
}.

(** [/\.(jpe?g|png|gif|avif)/i] *)
Definition extensionPattern : RegExp :=
  mkRegExp
    (Cat (Chr ".")
       (Alt (Cat (Chr "j") (Cat (Chr "p") (Cat (Opt (Chr "e")) (Chr "g"))))
          (Alt (word "p" "ng") (Alt (word "g" "if") (word "a" "vif")))))
    true.

(** [/image\/(jpeg|png|gif|avif)/i] *)
Definition mimePattern : RegExp :=
  mkRegExp
    (Cat (word "i" "mage")
       (Cat (Chr "/")
          (Alt (word "j" "peg")
             (Alt (word "p" "ng") (Alt (word "g" "if") (word "a" "vif"))))))
    true.

Definition defaultPredicate (declaration : Declaration) : bool :=
  test extensionPattern (value declaration).

Definition defaultRename (declaration : Declaration) : string :=
  replaceAll (replaceAll (value declaration) extensionPattern ".webp")
             mimePattern "image/webp".

Definition defaults : IPluginOptions :=
  mkOptions defaultPredicate defaultRename "no-webp" "webp" "no-js" false false.

(** The two maps of the plugin instance, with the next free reference of
    the heap the new rules are allocated from. *)
Record Store : Type := mkStore {
  noWebpRules : RuleMap;
  webpRules : RuleMap;
  fresh : nat
}.

Section Plugin.

Variable options : IPluginOptions.

(** The text of a marker class: [.name], or [:global(.name)] with the
    [modules] option. *)
Definition markerClass (className : string) : string :=
  if modules options then ":global(." ++ className ++ ")" else "." ++ className.

(** The first line of the arrow function of [transformSelectors]. *)
Definition cleanSelector (className selector : string) : string :=
  replace (replace selector className "") ":root" "".

Definition transformSelector (className selector : string) : string :=
  let selector := cleanSelector className selector in
  if includes selector "html" then replace selector "html" ("html" ++ className)
  else if negb (Nat.eqb (String.length selector) 0)
       then "html" ++ className ++ " " ++ selector
       else "html" ++ className.

Definition transformSelectors (selectors : list string) (className : string)
  : list string :=
  let className := markerClass className in
  map (transformSelector className) selectors.

(** [rule.walkDecls(...)] with the callback of the visit hook: a matching
    declaration is pushed on both lists and removed from the rule. *)
Fixpoint walkDecls (ns : list ChildNode)
         (noWebpDeclarations webpDeclarations : list Declaration)
  : list ChildNode * (list Declaration * list Declaration) :=
  match ns with
  | [] => ([], (noWebpDeclarations, webpDeclarations))
  | Decl declaration :: rest =>
      if negb (predicate options declaration) then
        let '(kept, lists) := walkDecls rest noWebpDeclarations webpDeclarations in
        (Decl declaration :: kept, lists)
      else
        walkDecls rest
          (noWebpDeclarations ++ [mkDecl (prop declaration) (value declaration)])
          (webpDeclarations ++ [mkDecl (prop declaration) (rename options declaration)])
  | Comment text :: rest =>
      let '(kept, lists) := walkDecls rest noWebpDeclarations webpDeclarations in
      (Comment text :: kept, lists)
  end.

(** The [Rule] hook. *)
Definition visitRule (st : Store) (rule : Rule) : Store * Rule :=
  if includes (selector rule) ("." ++ noWebpClass options) then (st, rule)
  else
    let '(kept, (noWebpDeclarations, webpDeclarations)) :=
      walkDecls (nodes rule) [] [] in
    let rule := setNodes rule kept in
    let st :=
      if Nat.ltb 0 (List.length noWebpDeclarations) then
        let noWebpRule :=
          newRule (fresh st)
                  (transformSelectors (selectors rule) (noWebpClass options))
                  noWebpDeclarations in
        let noWebpRule :=
          if addNoJs options then
            setSelectors noWebpRule
              (selectors noWebpRule
                 ++ transformSelectors (selectors rule) (noJsClass options))
          else noWebpRule in
        mkStore (Map_set (noWebpRules st) (ref rule) noWebpRule)
                (webpRules st) (S (fresh st))
      else st in
    let st :=
      if Nat.ltb 0 (List.length webpDeclarations) then
        let webpRule :=
          newRule (fresh st)
                  (transformSelectors (selectors rule) (webpClass options))
                  webpDeclarations in
        mkStore (noWebpRules st)
                (Map_set (webpRules st) (ref rule) webpRule) (S (fresh st))
      else st in
    (st, rule).

(** The engine's walk: every rule of the tree is handed to the hook once,
    in document order.  (The engine comes back to a rule the hook has
    changed; the hook then finds no declaration left to move.) *)
Fixpoint walkNode (st : Store) (n : Node) : Store * Node :=
  match n with
  | RuleNode r => let '(st, r) := visitRule st r in (st, RuleNode r)
  | AtRule name params children =>
      let '(st, children) :=
        (fix walkNodes (st : Store) (ns : list Node) : Store * list Node :=
           match ns with
           | [] => (st, [])
           | n :: rest =>
               let '(st, n) := walkNode st n in
               let '(st, rest) := walkNodes st rest in
               (st, n :: rest)
           end) st children in
      (st, AtRule name params children)
  | Other _ => (st, n)
  end.

Fixpoint walk (st : Store) (ns : list Node) : Store * list Node :=
  match ns with
  | [] => (st, [])
  | n :: rest =>
      let '(st, n) := walkNode st n in
      let '(st, rest) := walk st rest in
      (st, n :: rest)
  end.

(** The [OnceExit] hook: the rules for browsers without WebP first, then
    the rules for browsers with it. *)
Definition OnceExit (st : Store) (root : Root) : Root :=
  let root :=
    fold_left (fun root '(rule, noWebpRule) => after rule noWebpRule root)
              (noWebpRules st) root in
  fold_left (fun root '(rule, webpRule) => after rule webpRule root)
            (webpRules st) root.

(** One run of the plugin over a tree: fresh maps, the walk, the
    finalizer.  New rules are allocated beyond every reference in use. *)
Definition transform (root : Root) : Root :=
  let st := mkStore [] [] (S (list_max (refs root))) in
  let '(st, root) := walk st root in
  OnceExit st root.

End Plugin.

Definition sectionRule : Rule :=
  mkRule 0 "section" ["section"]
         [Decl (mkDecl "background" "url(./image.png)");
          Decl (mkDecl "color" "red")].

(** ** Vocabulary of the properties *)

(** [p] occurs in [s]. *)
Definition occursIn (p s : string) : Prop :=
  exists a b, s = a ++ p ++ b.

(** [s'] is [s] without its leftmost occurrence of [p]; [s] itself when
    [p] does not occur. *)
Definition removesFirst (p s s' : string) : Prop :=
  (~ occursIn p s /\ s' = s)
  \/ exists a b,
       s = a ++ p ++ b /\ s' = a ++ b
       /\ forall a' b', s = a' ++ p ++ b' -> String.length a <= String.length a'.

(** The number of positions of [s] at which [p] starts. *)
Fixpoint countOccurrences (s p : string) : nat :=
  (if startsWith s p then 1 else 0)
  + match s with
    | "" => 0
    | String _ s' => countOccurrences s' p
    end.

(** No [$] in a class name. *)
Fixpoint noDollar (s : string) : bool :=
  match s with
  | "" => true
  | String c s' => negb (Ascii.eqb c "$") && noDollar s'
  end.

(** [m.get(k)]. *)
Fixpoint Map_get (m : RuleMap) (k : nat) : option Rule :=
  match m with
  | [] => None
  | (k', v) :: m' => if Nat.eqb k' k then Some v else Map_get m' k
  end.

(** The child is a declaration the classifier accepts. *)
Definition matching (options : IPluginOptions) (c : ChildNode) : bool :=
  match c with
  | Decl d => predicate options d
  | Comment _ => false
  end.

(** *** The content of a tree and the rule-by-rule view of a run *)




(** The rules of a tree, in document order. *)
Fixpoint rulesOfNode (n : Node) : list Rule :=
  match n with
  | RuleNode r => [r]
  | AtRule _ _ children => flat_map rulesOfNode children
  | Other _ => []
  end.

Definition rulesOf (root : Root) : list Rule := flat_map rulesOfNode root.

(** No reference occurs twice. *)
Fixpoint distinct (l : list nat) : bool :=
  match l with
  | [] => true
  | x :: l' => negb (existsb (Nat.eqb x) l') && distinct l'
  end.


Section Views.

Variable options : IPluginOptions.

(** The declarations of a rule the classifier accepts, in order. *)
Fixpoint matchedDecls (ns : list ChildNode) : list Declaration :=
  match ns with
  | [] => []
  | Decl d :: rest =>
      if predicate options d then d :: matchedDecls rest else matchedDecls rest
  | Comment _ :: rest => matchedDecls rest
  end.

(** The children of a rule the classifier does not accept, in order. *)
Definition keptNodes (ns : list ChildNode) : list ChildNode :=
  filter (fun c => negb (matching options c)) ns.

Definition skipped (rule : Rule) : bool :=
  includes (selector rule) ("." ++ noWebpClass options).

(** The rule the hook leaves behind. *)
Definition strippedRule (rule : Rule) : Rule :=
  if skipped rule then rule else setNodes rule (keptNodes (nodes rule)).

(** The fallback and the capable variant of a rule, allocated at [r]. *)
Definition noWebpVariant (rule : Rule) (r : nat) : Rule :=
  let v := newRule r (transformSelectors options (selectors rule) (noWebpClass options))
                   (map (fun d => mkDecl (prop d) (value d))
                        (matchedDecls (nodes rule))) in
  if addNoJs options then
    setSelectors v (selectors v
                      ++ transformSelectors options (selectors rule)
                                            (noJsClass options))
  else v.

Definition webpVariant (rule : Rule) (r : nat) : Rule :=
  newRule r (transformSelectors options (selectors rule) (webpClass options))
          (map (fun d => mkDecl (prop d) (rename options d))
               (matchedDecls (nodes rule))).

(** Does the hook record variants for the rule. *)
Definition splits (rule : Rule) : bool :=
  negb (skipped rule)
  && match matchedDecls (nodes rule) with [] => false | _ :: _ => true end.




(** The tree after the walk. *)
Fixpoint stripNode (n : Node) : Node :=
  match n with
  | RuleNode r => RuleNode (strippedRule r)
  | AtRule name params children => AtRule name params (map stripNode children)
  | Other _ => n
  end.

(** The store after the hook has seen the rules of a list. *)
Definition visitAll (st : Store) (rules : list Rule) : Store :=
  fold_left (fun st r => fst (visitRule options st r)) rules st.

End Views.










(** *** Occurrences of the image patterns in a value *)

(** [tok], a word in lower case, is a prefix of [s] up to case. *)
Fixpoint ciPrefix (tok s : string) {struct tok} : bool :=
  match tok, s with
  | "", _ => true
  | String a tok', String c s' => chr_eq true a c && ciPrefix tok' s'
  | String _ _, "" => false
  end.

(** [k] is the word [tok] up to case. *)
Fixpoint ciEqual (tok k : string) {struct tok} : bool :=
  match tok, k with
  | "", "" => true
  | String a tok', String c k' => chr_eq true a c && ciEqual tok' k'
  | _, _ => false
  end.

(** The first word of the list that starts [s], and what follows it. *)
Fixpoint firstToken (toks : list string) (s : string) : option string :=
  match toks with
  | [] => None
  | tok :: toks' =>
      if ciPrefix tok s then Some (drop (String.length tok) s)
      else firstToken toks' s
  end.

Definition startsAny (toks : list string) (s : string) : bool :=
  existsb (fun tok => ciPrefix tok s) toks.

Definition isToken (toks : list string) (k : string) : bool :=
  existsb (fun tok => ciEqual tok k) toks.

(** The words of the two patterns, in the order the alternatives are
    tried. *)
Definition extensionTokens : list string :=
  [".jpeg"; ".jpg"; ".png"; ".gif"; ".avif"].

Definition mimeTokens : list string :=
  ["image/jpeg"; "image/png"; "image/gif"; "image/avif"].

(** A value cut into pieces: texts in which neither pattern occurs, each
    followed by one occurrence of a pattern, and a last text. *)
Definition assemble (segments : list (string * string)) (last : string) : string :=
  fold_right (fun seg rest => fst seg ++ snd seg ++ rest) last segments.

Definition plainText (t : string) : bool :=
  negb (test extensionPattern t) && negb (test mimePattern t).

Definition cutValue (segments : list (string * string)) (last : string) : bool :=
  forallb (fun seg =>
             plainText (fst seg)
             && (isToken extensionTokens (snd seg) || isToken mimeTokens (snd seg)))
          segments
  && plainText last.

(** What an occurrence becomes in the value of the capable variant. *)
Definition renamedToken (k : string) : string :=
  if isToken extensionTokens k then ".webp" else "image/webp".

(** What is left of a word never starts with a dot, and never has an
    [i] at its end or before an [m]. *)
Fixpoint dotFree (u : string) : bool :=
  match u with
  | "" => true
  | String a u' => negb (chr_eq true a ".") && dotFree u'
  end.

Fixpoint imFree (u : string) : bool :=
  match u with
  | "" => true
  | String a u' =>
      (if chr_eq true a "i"
       then match u' with
            | String b _ => negb (chr_eq true b "m")
            | "" => false
            end
       else true)
      && imFree u'
  end.

(** The text after a piece of plain text: nothing, or something that
    starts with a dot or with [im]. *)
Definition stops (y : string) : bool :=
  match y with
  | "" => true
  | String c y' =>
      chr_eq true "." c
      || (chr_eq true "i" c
          && match y' with
             | String d _ => chr_eq true "m" d
             | "" => false
             end)
  end.

(** No code unit of [k] is the character [p] up to case. *)
Fixpoint noneOf (p : ascii) (k : string) : bool :=
  match k with
  | "" => true
  | String c k' => negb (chr_eq true p c) && noneOf p k'
  end.

(** Every word starts with a character that is followed by a tail of
    the kind [dotFree] and [imFree] describe. *)
Definition goodTokens (toks : list string) : bool :=
  forallb (fun tok => match tok with
                      | String _ u => dotFree u && imFree u
                      | "" => false
                      end) toks.

(** ** The runtime probe

    The class list of the document root is an ordered set of tokens.
    The script is given valid tokens only, so the errors the class list
    raises on an empty token or on white space are not in the model. *)

Module Probe.

Definition DOMTokenList : Type := list string.

(** [classList.contains(token)]. *)
Definition contains (classList : DOMTokenList) (token : string) : bool :=
  existsb (String.eqb token) classList.

(** [classList.add(token)]: the token is appended unless it is there. *)
Definition add (classList : DOMTokenList) (token : string) : DOMTokenList :=
  if contains classList token then classList else (classList ++ [token])%list.

(** Replacement within an ordered set: the first instance of either token
    becomes the new one, every other instance of either goes. *)
Fixpoint replaceWithin (classList : DOMTokenList) (token newToken : string)
  : DOMTokenList :=
  match classList with
  | [] => []
  | t :: rest =>
      if String.eqb t token || String.eqb t newToken then
        newToken
          :: filter (fun x => negb (String.eqb x token || String.eqb x newToken))
                    rest
      else t :: replaceWithin rest token newToken
  end.

(** [classList.replace(token, newToken)]: nothing happens when the token
    is not in the list. *)
Definition replace (classList : DOMTokenList) (token newToken : string)
  : DOMTokenList :=
  if contains classList token then replaceWithin classList token newToken
  else classList.

(** The first statement of the script. *)
Definition start (classList : DOMTokenList) : DOMTokenList :=
  replace classList "no-js" "js".

(** The function set as [image.onload] and as [image.onerror], run when
    the image has the given height. *)
Definition onProbe (height : nat) (classList : DOMTokenList) : DOMTokenList :=
  add classList (if negb (Nat.eqb height 0) then "webp" else "no-webp").

End Probe.

(** ** The plugin on the engine's full tree

    The engine's rules hold more than the plain stylesheets above show.
    A rule may contain rules and at-rule blocks, and [rule.walkDecls]
    calls back on the declarations at every depth below the rule.  A
    declaration carries its [important] flag.  A rule stores its
    selector text only: [rule.selectors] splits that text at every
    reading, with the engine's [list.comma], and the setter joins the
    list it is given into the text.  This module has the hook, the walk
    and the finalizer over that tree; the selector transformer is the
    one above. *)

Module Nested.

Record Declaration : Type := mkDeclaration {
  prop : string;
  value : string;
  important : bool
}.

(** What the hook pushes on its two lists: [{ prop, value }]. *)
Definition DeclarationProps : Type := PostCSS.Declaration.

#[warnings="-register-all"]
Inductive Node : Type :=
| Decl (d : Declaration)
| Comment (text : string)
| RuleNode (r : Rule)
| AtRule (name params : string) (children : list Node)
with Rule : Type :=
| mkRule (ref : nat) (selector : string) (nodes : list Node).

Definition ref (rule : Rule) : nat :=
  match rule with mkRule r _ _ => r end.

Definition selector (rule : Rule) : string :=
  match rule with mkRule _ s _ => s end.

Definition nodes (rule : Rule) : list Node :=
  match rule with mkRule _ _ ns => ns end.

Definition setNodes (rule : Rule) (ns : list Node) : Rule :=
  mkRule (ref rule) (selector rule) ns.

(** *** [String.prototype.trim] *)

Fixpoint trimStart (s : string) : string :=
  match s with
  | "" => ""
  | String c s' => if isSpace c then trimStart s' else s
  end.

Fixpoint trimEnd (s : string) : string :=
  match s with
  | "" => ""
  | String c s' =>
      match trimEnd s' with
      | "" => if isSpace c then "" else String c ""
      | t => String c t
      end
  end.

Definition trim (s : string) : string := trimEnd (trimStart s).

(** *** The engine's [list.split] and [list.comma]

    The state of the scan besides the pieces: the depth of open
    parentheses, the quote that is open if any, and whether the letter
    before was a backslash. *)

Record Scan : Type := mkScan {
  func : nat;
  quote : option ascii;
  escape : bool
}.

Definition doubleQuote : ascii := ascii_of_nat 34.

(** The first half of the loop body: the new state, and whether the
    letter is a separator to split at. *)
Definition scanLetter (separators : list ascii) (sc : Scan) (letter : ascii)
  : Scan * bool :=
  if escape sc then (mkScan (func sc) (quote sc) false, false)
  else if Ascii.eqb letter "\" then (mkScan (func sc) (quote sc) true, false)
  else match quote sc with
       | Some q =>
           if Ascii.eqb letter q then (mkScan (func sc) None false, false)
           else (sc, false)
       | None =>
           if Ascii.eqb letter doubleQuote || Ascii.eqb letter "'" then
             (mkScan (func sc) (Some letter) false, false)
           else if Ascii.eqb letter "(" then
             (mkScan (S (func sc)) None false, false)
           else if Ascii.eqb letter ")" then
             (mkScan (Nat.pred (func sc)) None false, false)
           else if Nat.eqb (func sc) 0 then
             (sc, existsb (Ascii.eqb letter) separators)
           else (sc, false)
       end.

(** The second half and the end of the loop: at a separator the piece
    read so far is pushed, trimmed, unless it is empty; after the last
    letter the piece is pushed when [last] is set or it is not empty. *)
Fixpoint splitFrom (separators : list ascii) (last : bool) (sc : Scan)
         (array : list string) (current : string) (s : string) : list string :=
  match s with
  | "" =>
      if last || negb (String.eqb current "") then (array ++ [trim current])%list
      else array
  | String letter s' =>
      let '(sc, split) := scanLetter separators sc letter in
      if split then
        splitFrom separators last sc
                  (if negb (String.eqb current "")
                   then (array ++ [trim current])%list else array)
                  "" s'
      else
        splitFrom separators last sc array (current ++ String letter "") s'
  end.

Definition split (s : string) (separators : list ascii) (last : bool)
  : list string :=
  splitFrom separators last (mkScan 0 None false) [] "" s.

Definition comma (s : string) : list string := split s [","%char] true.

(** *** Rules *)

(** [rule.selectors]. *)
Definition selectors (rule : Rule) : list string := comma (selector rule).

(** [rule.selectors = values]. *)
Definition setSelectors (rule : Rule) (values : list string) : Rule :=
  mkRule (ref rule) (join (separator (selector rule)) values) (nodes rule).

(** [new Rule({ selectors, nodes })] for a rule allocated at [r]: the
    declarations are made from the properties given, so none of them is
    important. *)
Definition newRule (r : nat) (values : list string)
           (declarations : list DeclarationProps) : Rule :=
  mkRule r (join ", " values)
         (map (fun p => Decl (mkDeclaration (PostCSS.prop p) (PostCSS.value p) false))
              declarations).

Definition RuleMap : Type := list (nat * Rule).

Fixpoint Map_set (m : RuleMap) (k : nat) (v : Rule) : RuleMap :=
  match m with
  | [] => [(k, v)]
  | (k', v') :: m' =>
      if Nat.eqb k' k then (k', v) :: m' else (k', v') :: Map_set m' k v
  end.

Fixpoint Map_get (m : RuleMap) (k : nat) : option Rule :=
  match m with
  | [] => None
  | (k', v) :: m' => if Nat.eqb k' k then Some v else Map_get m' k
  end.

Definition Root : Type := list Node.

(** The rules of a tree at every depth, a rule before the rules inside
    it, and their references. *)
Fixpoint rulesOfNode (n : Node) : list Rule :=
  match n with
  | RuleNode r => r :: flat_map rulesOfNode (nodes r)
  | AtRule _ _ children => flat_map rulesOfNode children
  | _ => []
  end.

Definition rulesOf (root : Root) : list Rule := flat_map rulesOfNode root.

Definition refs (root : Root) : list nat := map ref (rulesOf root).

(** [rule.after(v)] for the rule of reference [k]: [v] becomes the next
    sibling of that rule, wherever the rule sits in the tree. *)
Fixpoint afterNode (k : nat) (v : Rule) (n : Node) : list Node :=
  match n with
  | RuleNode r =>
      let n := RuleNode (setNodes r (flat_map (afterNode k v) (nodes r))) in
      if Nat.eqb (ref r) k then [n; RuleNode v] else [n]
  | AtRule name params children =>
      [AtRule name params (flat_map (afterNode k v) children)]
  | _ => [n]
  end.

Definition after (k : nat) (v : Rule) (root : Root) : Root :=
  flat_map (afterNode k v) root.

(** How deep the containers of a tree go. *)
Fixpoint height (n : Node) : nat :=
  match n with
  | RuleNode r => S (list_max (map height (nodes r)))
  | AtRule _ _ children => S (list_max (map height children))
  | _ => 0
  end.

Definition heightOf (ns : list Node) : nat := list_max (map height ns).

(** *** The plugin *)

Record IPluginOptions : Type := mkOptions {
  predicate : Declaration -> bool;
  rename : Declaration -> string;
  noWebpClass : string;
  webpClass : string;
  noJsClass : string;
  addNoJs : bool;
  modules : bool
}.

Definition defaultPredicate (declaration : Declaration) : bool :=
  test extensionPattern (value declaration).

Definition defaultRename (declaration : Declaration) : string :=
  replaceAll (replaceAll (value declaration) extensionPattern ".webp")
             mimePattern "image/webp".

Definition defaults : IPluginOptions :=
  mkOptions defaultPredicate defaultRename "no-webp" "webp" "no-js" false false.

Record Store : Type := mkStore {
  noWebpRules : RuleMap;
  webpRules : RuleMap;
  fresh : nat
}.

Section Plugin.

Variable options : IPluginOptions.

Definition markerClass (className : string) : string :=
  if modules options then ":global(." ++ className ++ ")" else "." ++ className.

Definition transformSelectors (selectors : list string) (className : string)
  : list string :=
  let className := markerClass className in
  map (transformSelector className) selectors.

(** [rule.walkDecls(...)] with the callback of the visit hook, over one
    node below the rule: the node comes back without the declarations
    that were removed from it, or not at all when it is one of them. *)
Fixpoint walkDeclsNode (n : Node)
         (noWebpDeclarations webpDeclarations : list DeclarationProps)
  : list Node * (list DeclarationProps * list DeclarationProps) :=
  let walkDeclsNodes :=
    fix walkDeclsNodes (ns : list Node)
        (noWebpDeclarations webpDeclarations : list DeclarationProps)
      : list Node * (list DeclarationProps * list DeclarationProps) :=
      match ns with
      | [] => ([], (noWebpDeclarations, webpDeclarations))
      | child :: rest =>
          let '(kept, (noWebpDeclarations, webpDeclarations)) :=
            walkDeclsNode child noWebpDeclarations webpDeclarations in
          let '(keptRest, lists) :=
            walkDeclsNodes rest noWebpDeclarations webpDeclarations in
          ((kept ++ keptRest)%list, lists)
      end in
  match n with
  | Decl declaration =>
      if negb (predicate options declaration) then
        ([n], (noWebpDeclarations, webpDeclarations))
      else
        ([], ((noWebpDeclarations
                 ++ [mkDecl (prop declaration) (value declaration)])%list,
              (webpDeclarations
                 ++ [mkDecl (prop declaration) (rename options declaration)])%list))
  | Comment _ => ([n], (noWebpDeclarations, webpDeclarations))
  | RuleNode r =>
      let '(kept, lists) :=
        walkDeclsNodes (nodes r) noWebpDeclarations webpDeclarations in
      ([RuleNode (setNodes r kept)], lists)
  | AtRule name params children =>
      let '(kept, lists) :=
        walkDeclsNodes children noWebpDeclarations webpDeclarations in
      ([AtRule name params kept], lists)
  end.

Fixpoint walkDecls (ns : list Node)
         (noWebpDeclarations webpDeclarations : list DeclarationProps)
  : list Node * (list DeclarationProps * list DeclarationProps) :=
  match ns with
  | [] => ([], (noWebpDeclarations, webpDeclarations))
  | child :: rest =>
      let '(kept, (noWebpDeclarations, webpDeclarations)) :=
        walkDeclsNode child noWebpDeclarations webpDeclarations in
      let '(keptRest, lists) :=
        walkDecls rest noWebpDeclarations webpDeclarations in
      ((kept ++ keptRest)%list, lists)
  end.

(** The [Rule] hook. *)
Definition visitRule (st : Store) (rule : Rule) : Store * Rule :=
  if includes (selector rule) ("." ++ noWebpClass options) then (st, rule)
  else
    let '(kept, (noWebpDeclarations, webpDeclarations)) :=
      walkDecls (nodes rule) [] [] in
    let rule := setNodes rule kept in
    let st :=
      if Nat.ltb 0 (List.length noWebpDeclarations) then
        let noWebpRule :=
          newRule (fresh st)
                  (transformSelectors (selectors rule) (noWebpClass options))
                  noWebpDeclarations in
        let noWebpRule :=
          if addNoJs options then
            setSelectors noWebpRule
              (selectors noWebpRule
                 ++ transformSelectors (selectors rule) (noJsClass options))
          else noWebpRule in
        mkStore (Map_set (noWebpRules st) (ref rule) noWebpRule)
                (webpRules st) (S (fresh st))
      else st in
    let st :=
      if Nat.ltb 0 (List.length webpDeclarations) then
        let webpRule :=
          newRule (fresh st)
                  (transformSelectors (selectors rule) (webpClass options))
                  webpDeclarations in
        mkStore (noWebpRules st)
                (Map_set (webpRules st) (ref rule) webpRule) (S (fresh st))
      else st in
    (st, rule).

(** The engine's walk.  A rule is handed to the hook, then the walk goes
    on below the rule as the hook has left it; an at-rule block is
    walked through.  [below] is the walk one level down. *)
Definition walkNode (below : Store -> list Node -> option (Store * list Node))
           (st : Store) (n : Node) : option (Store * Node) :=
  match n with
  | RuleNode r =>
      let '(st, r) := visitRule st r in
      match below st (nodes r) with
      | Some (st, children) => Some (st, RuleNode (setNodes r children))
      | None => None
      end
  | AtRule name params children =>
      match below st children with
      | Some (st, children) => Some (st, AtRule name params children)
      | None => None
      end
  | _ => Some (st, n)
  end.

Fixpoint walkNodes (below : Store -> list Node -> option (Store * list Node))
         (st : Store) (ns : list Node) : option (Store * list Node) :=
  match ns with
  | [] => Some (st, [])
  | n :: rest =>
      match walkNode below st n with
      | Some (st, n) =>
          match walkNodes below st rest with
          | Some (st, rest) => Some (st, n :: rest)
          | None => None
          end
      | None => None
      end
  end.

(** [fuel] bounds the depth the walk can reach; [None] when it does not
    suffice. *)
Fixpoint walk (fuel : nat) (st : Store) (ns : list Node)
  : option (Store * list Node) :=
  match fuel with
  | 0 => None
  | S fuel => walkNodes (walk fuel) st ns
  end.

(** The [OnceExit] hook: the rules for browsers without WebP first, then
    the rules for browsers with it. *)
Definition OnceExit (st : Store) (root : Root) : Root :=
  let root :=
    fold_left (fun root '(rule, noWebpRule) => after rule noWebpRule root)
              (noWebpRules st) root in
  fold_left (fun root '(rule, webpRule) => after rule webpRule root)
            (webpRules st) root.

(** One run of the plugin over a tree: fresh maps, the walk, the
    finalizer.  New rules are allocated beyond every reference in use. *)
Definition transform (root : Root) : option Root :=
  let st := mkStore [] [] (S (list_max (refs root))) in
  match walk (S (heightOf root)) st root with
  | Some (st, root) => Some (OnceExit st root)
  | None => None
  end.

(** *** Vocabulary *)

(** The declarations below a node, at every depth, in document order. *)
Fixpoint declarationsOf (n : Node) : list Declaration :=
  match n with
  | Decl d => [d]
  | Comment _ => []
  | RuleNode r => flat_map declarationsOf (nodes r)
  | AtRule _ _ children => flat_map declarationsOf children
  end.

Definition declarations (ns : list Node) : list Declaration :=
  flat_map declarationsOf ns.

(** The nodes without the declarations the classifier accepts, whatever
    their depth; everything else stays where it is. *)
Fixpoint withoutMatchingNode (n : Node) : list Node :=
  match n with
  | Decl d => if predicate options d then [] else [n]
  | Comment _ => [n]
  | RuleNode r => [RuleNode (setNodes r (flat_map withoutMatchingNode (nodes r)))]
  | AtRule name params children =>
      [AtRule name params (flat_map withoutMatchingNode children)]
  end.

Definition withoutMatching (ns : list Node) : list Node :=
  flat_map withoutMatchingNode ns.

Definition skipped (rule : Rule) : bool :=
  includes (selector rule) ("." ++ noWebpClass options).

(** The declarations below a rule that the classifier accepts. *)
Definition matched (rule : Rule) : list Declaration :=
  filter (predicate options) (declarations (nodes rule)).

(** The fallback and the capable variant of a rule, allocated at [r]. *)
Definition noWebpVariant (rule : Rule) (r : nat) : Rule :=
  let v := newRule r (transformSelectors (selectors rule) (noWebpClass options))
                   (map (fun d => mkDecl (prop d) (value d)) (matched rule)) in
  if addNoJs options then
    setSelectors v (selectors v
                      ++ transformSelectors (selectors rule) (noJsClass options))
  else v.

Definition webpVariant (rule : Rule) (r : nat) : Rule :=
  newRule r (transformSelectors (selectors rule) (webpClass options))
          (map (fun d => mkDecl (prop d) (rename options d)) (matched rule)).

(** The rules of a tree the walk finds with something to move: not
    skipped, with a matching declaration below, and inside skipped rules
    and at-rule blocks only (a rule that is not skipped leaves nothing to
    move in the rules below it). *)
Fixpoint splittersNode (n : Node) : list Rule :=
  match n with
  | RuleNode r =>
      if skipped r then flat_map splittersNode (nodes r)
      else match matched r with
           | [] => []
           | _ :: _ => [r]
           end
  | AtRule _ _ children => flat_map splittersNode children
  | _ => []
  end.

Definition splitters (root : Root) : list Rule := flat_map splittersNode root.

(** The tree the walk leaves behind. *)
Fixpoint stripNode (n : Node) : Node :=
  match n with
  | RuleNode r =>
      if skipped r then RuleNode (setNodes r (map stripNode (nodes r)))
      else RuleNode (setNodes r (withoutMatching (nodes r)))
  | AtRule name params children => AtRule name params (map stripNode children)
  | _ => n
  end.

Definition strip (root : Root) : Root := map stripNode root.

(** The hook called on some rules in turn: the store after the calls. *)
Definition calls (st : Store) (rules : list Rule) : Store :=
  fold_left (fun st rule => fst (visitRule st rule)) rules st.

End Plugin.

(** White space only. *)
Fixpoint allSpace (s : string) : bool :=
  match s with
  | "" => true
  | String c s' => isSpace c && allSpace s'
  end.

(** The scan of [list.comma] over [s] from a given state: the state it
    ends in, unless it splits on the way. *)
Fixpoint runs (sc : Scan) (s : string) : option Scan :=
  match s with
  | "" => Some sc
  | String letter s' =>
      let '(sc, split) := scanLetter [","%char] sc letter in
      if split then None else runs sc s'
  end.

(** A text [list.comma] reads as one piece and leaves nothing open: no
    comma outside quotes and parentheses, every quote and parenthesis
    closed, no backslash at the end. *)
Definition isolated (s : string) : bool :=
  match runs (mkScan 0 None false) s with
  | Some (mkScan 0 None false) => true
  | _ => false
  end.

(** The default options with the no-script selectors asked for. *)
Definition withNoJs : IPluginOptions :=
  mkOptions defaultPredicate defaultRename "no-webp" "webp" "no-js" true false.

(** [main :root { background: url(a.png) }] *)
Definition mainRule : Rule :=
  mkRule 0 "main :root" [Decl (mkDeclaration "background" "url(a.png)" false)].

(** [a:is(.x, .y), b[title='p,q'] :root { background: url(a.png) }] *)
Definition listRule : Rule :=
  mkRule 0 "a:is(.x, .y), b[title='p,q'] :root"
         [Decl (mkDeclaration "background" "url(a.png)" false)].

(** [:is(.x,.y) a { background: url(a.png) }] *)
Definition tightRule : Rule :=
  mkRule 0 ":is(.x,.y) a"
         [Decl (mkDeclaration "background" "url(a.png)" false)].

(** [a { background: url(y.png) !important; b { background: url(x.png);
    color: red } }] *)
Definition outerRule : Rule :=
  mkRule 0 "a"
         [Decl (mkDeclaration "background" "url(y.png)" true);
          RuleNode (mkRule 1 "b"
                           [Decl (mkDeclaration "background" "url(x.png)" false);
                            Decl (mkDeclaration "color" "red" false)])].

End Nested.

(** ** Plain stylesheets inside the full tree

    A plain stylesheet read as a tree of the engine: its declarations
    are not important, its rules keep their reference, their selector
    text and their children. *)

Definition embedDeclaration (d : Declaration) : Nested.Declaration :=
  Nested.mkDeclaration (prop d) (value d) false.

Definition embedChild (c : ChildNode) : Nested.Node :=
  match c with
  | Decl d => Nested.Decl (embedDeclaration d)
  | Comment text => Nested.Comment text
  end.

Definition embedRule (r : Rule) : Nested.Rule :=
  Nested.mkRule (ref r) (selector r) (map embedChild (nodes r)).

Fixpoint embedNode (n : Node) : Nested.Node :=
  match n with
  | RuleNode r => Nested.RuleNode (embedRule r)
  | AtRule name params children =>
      Nested.AtRule name params (map embedNode children)
  | Other c => embedChild c
  end.

Definition embed (root : Root) : Nested.Root := map embedNode root.

Definition embedMap (m : RuleMap) : Nested.RuleMap :=
  map (fun kv => (fst kv, embedRule (snd kv))) m.

Definition embedStore (st : Store) : Nested.Store :=
  Nested.mkStore (embedMap (noWebpRules st)) (embedMap (webpRules st))
                 (fresh st).

(** The options as the plain model takes them. *)
Definition plainOptions (o : Nested.IPluginOptions) : IPluginOptions :=
  mkOptions (fun d => Nested.predicate o (embedDeclaration d))
            (fun d => Nested.rename o (embedDeclaration d))
            (Nested.noWebpClass o) (Nested.webpClass o) (Nested.noJsClass o)
            (Nested.addNoJs o) (Nested.modules o).

(** A rule whose selector list is the one the engine reads from its
    text, and whose fallback selectors, when the no-script selectors are
    asked for, read back as they were written. *)
Definition readsBack (o : Nested.IPluginOptions) (r : Rule) : Prop :=
  selectors r = Nested.comma (selector r)
  /\ (Nested.addNoJs o = true ->
      Nested.comma
        (join ", " (transformSelectors (plainOptions o) (selectors r)
                                       (Nested.noWebpClass o)))
      = transformSelectors (plainOptions o) (selectors r)
                           (Nested.noWebpClass o)).

(** * Properties *)

(** ** Strings *)

Section StringFacts.

Lemma app_nil_r (s : string) : s ++ "" = s.
Proof. induction s as [|c s IH]; simpl; [reflexivity | now rewrite IH]. Qed.

Lemma app_assoc (a b c : string) : (a ++ b) ++ c = a ++ b ++ c.
Proof. induction a as [|x a IH]; simpl; [reflexivity | now rewrite IH]. Qed.

Lemma length_app (a b : string) :
  String.length (a ++ b) = String.length a + String.length b.
Proof. induction a as [|x a IH]; simpl; [reflexivity | now rewrite IH]. Qed.

Lemma take_drop (n : nat) (s : string) : take n s ++ drop n s = s.
Proof.
  revert s; induction n as [|n IH]; intros [|c s]; simpl; try reflexivity.
  now rewrite IH.
Qed.

Lemma drop_app (a b : string) : drop (String.length a) (a ++ b) = b.
Proof. induction a as [|x a IH]; simpl; [now destruct b | exact IH]. Qed.

Lemma drop_add (n m : nat) (s : string) : drop (n + m) s = drop m (drop n s).
Proof.
  revert s; induction n as [|n IH]; intros s; simpl; [reflexivity|].
  destruct s as [|c s]; [now destruct m | apply IH].
Qed.

Lemma length_take (n : nat) (s : string) :
  n <= String.length s -> String.length (take n s) = n.
Proof.
  revert s; induction n as [|n IH]; intros [|c s]; simpl; intros H;
    try reflexivity; try lia.
  rewrite IH; lia.
Qed.

Lemma startsWith_app (p b : string) : startsWith (p ++ b) p = true.
Proof.
  induction p as [|c p IH]; simpl; [reflexivity|].
  now rewrite Ascii.eqb_refl, IH.
Qed.

Lemma startsWith_split (s p : string) :
  startsWith s p = true -> s = p ++ drop (String.length p) s.
Proof.
  revert s; induction p as [|c p IH]; intros s H; simpl in *.
  - now destruct s.
  - destruct s as [|d s]; [discriminate|].
    apply andb_true_iff in H as [Hc Hp].
    apply Ascii.eqb_eq in Hc; subst d.
    simpl. f_equal. now apply IH.
Qed.

(** What [indexOf] returns: the least position at which the pattern
    starts. *)
Lemma indexOf_Some (s p : string) (i : nat) :
  indexOf s p = Some i ->
  startsWith (drop i s) p = true
  /\ i <= String.length s
  /\ forall j, j < i -> startsWith (drop j s) p = false.
Proof.
  revert i; induction s as [|c s IH]; intros i; simpl.
  - destruct (startsWith "" p) eqn:E; [|discriminate].
    intros [= <-]. simpl. repeat split; auto. intros j Hj; lia.
  - destruct (startsWith (String c s) p) eqn:E.
    + intros [= <-]. simpl. repeat split; auto; try lia.
    + destruct (indexOf s p) as [k|] eqn:Ek; simpl; [|discriminate].
      intros [= <-]. destruct (IH k eq_refl) as (H1 & H2 & H3).
      simpl. repeat split; auto; try lia.
      intros [|j] Hj; simpl; [exact E | apply H3; lia].
Qed.

Lemma indexOf_None (s p : string) :
  indexOf s p = None -> forall j, startsWith (drop j s) p = false.
Proof.
  induction s as [|c s IH]; simpl.
  - destruct (startsWith "" p) eqn:E; [discriminate|].
    intros _ [|j]; exact E.
  - destruct (startsWith (String c s) p) eqn:E; [discriminate|].
    destruct (indexOf s p) eqn:Ek; simpl; [discriminate|].
    intros _ [|j]; simpl; [exact E | now apply IH].
Qed.

Lemma indexOf_split (s p : string) (i : nat) :
  indexOf s p = Some i ->
  s = take i s ++ p ++ drop (i + String.length p) s
  /\ String.length (take i s) = i.
Proof.
  intros H. destruct (indexOf_Some _ _ _ H) as (H1 & H2 & _).
  split; [|now apply length_take].
  rewrite drop_add, <- (startsWith_split _ _ H1). symmetry. apply take_drop.
Qed.

Lemma indexOf_least (s p a b : string) (i : nat) :
  indexOf s p = Some i -> s = a ++ p ++ b -> i <= String.length a.
Proof.
  intros H E. destruct (indexOf_Some _ _ _ H) as (_ & _ & H3).
  destruct (Nat.le_gt_cases i (String.length a)) as [Hle|Hgt]; [exact Hle|].
  specialize (H3 _ Hgt). rewrite E, drop_app, startsWith_app in H3.
  discriminate.
Qed.

Lemma indexOf_occurs (p a b : string) :
  exists i, indexOf (a ++ p ++ b) p = Some i.
Proof.
  destruct (indexOf (a ++ p ++ b) p) as [i|] eqn:E; [now exists i|].
  pose proof (indexOf_None _ _ E (String.length a)) as H.
  rewrite drop_app, startsWith_app in H. discriminate.
Qed.

Lemma includes_occurs (s p : string) :
  includes s p = true <-> occursIn p s.
Proof.
  unfold includes. split.
  - destruct (indexOf s p) as [i|] eqn:E; [|discriminate].
    intros _. destruct (indexOf_split _ _ _ E) as [H _].
    now exists (take i s), (drop (i + String.length p) s).
  - intros (a & b & ->). destruct (indexOf_occurs p a b) as [i ->].
    reflexivity.
Qed.

Lemma includes_app (a p b : string) : includes (a ++ p ++ b) p = true.
Proof. apply includes_occurs. now exists a, b. Qed.

Lemma getSubstitution_plain (m b a t : string) :
  noDollar t = true -> getSubstitution m b a t = t.
Proof.
  induction t as [|c t IH]; simpl; [reflexivity|].
  intros H. apply andb_true_iff in H as [Hc Ht].
  apply negb_true_iff in Hc. rewrite Hc. now rewrite IH.
Qed.

(** [replace] with a [$]-free replacement, at an occurrence. *)
Lemma replace_Some (s p r : string) (i : nat) :
  indexOf s p = Some i -> noDollar r = true ->
  replace s p r = take i s ++ r ++ drop (i + String.length p) s.
Proof.
  intros H Hr. unfold replace. rewrite H. now rewrite getSubstitution_plain.
Qed.

Lemma replace_None (s p r : string) :
  indexOf s p = None -> replace s p r = s.
Proof. intros H. unfold replace. now rewrite H. Qed.

Lemma replace_removesFirst (s p : string) : removesFirst p s (replace s p "").
Proof.
  destruct (indexOf s p) as [i|] eqn:E.
  - right. destruct (indexOf_split _ _ _ E) as [Hs Hl].
    exists (take i s), (drop (i + String.length p) s).
    repeat split.
    + exact Hs.
    + now rewrite (replace_Some _ _ _ _ E).
    + intros a' b' E'. rewrite Hl. eapply indexOf_least; eauto.
  - left. split; [|now apply replace_None].
    intros (a & b & ->). destruct (indexOf_occurs p a b) as [i Hi].
    congruence.
Qed.

End StringFacts.

(** ** The selector transformer *)

Section SelectorFacts.

Variable options : IPluginOptions.

Lemma countOccurrences_eq (s p : string) :
  countOccurrences s p
  = (if startsWith s p then 1 else 0)
    + match s with "" => 0 | String _ s' => countOccurrences s' p end.
Proof. destruct s; reflexivity. Qed.

Lemma occursIn_count (p s : string) :
  occursIn p s -> 1 <= countOccurrences s p.
Proof.
  intros (a & b & ->). induction a as [|c a IH].
  - rewrite countOccurrences_eq. simpl (_ ++ _).
    rewrite startsWith_app. lia.
  - rewrite countOccurrences_eq. simpl (String c a ++ _). lia.
Qed.

Lemma noDollar_app (a b : string) :
  noDollar (a ++ b) = noDollar a && noDollar b.
Proof.
  induction a as [|c a IH]; simpl; [reflexivity|].
  now rewrite IH, andb_assoc.
Qed.

Lemma noDollar_markerClass (className : string) :
  noDollar className = true -> noDollar (markerClass options className) = true.
Proof.
  intros H. unfold markerClass. destruct (modules options).
  - rewrite !noDollar_app, H. reflexivity.
  - rewrite noDollar_app, H. reflexivity.
Qed.

(** The three cases of the insertion, spelled out on the cleaned
    selector. *)
Lemma transformSelector_html (cn sel : string) (i : nat) :
  noDollar cn = true ->
  indexOf (cleanSelector cn sel) "html" = Some i ->
  transformSelector cn sel
  = take i (cleanSelector cn sel) ++ "html" ++ cn
      ++ drop (i + 4) (cleanSelector cn sel).
Proof.
  intros Hd Hi. unfold transformSelector, includes. rewrite Hi.
  rewrite (replace_Some _ _ _ _ Hi).
  - now rewrite app_assoc.
  - rewrite noDollar_app. now rewrite Hd.
Qed.

Lemma transformSelector_prefix (cn sel : string) :
  includes (cleanSelector cn sel) "html" = false ->
  cleanSelector cn sel <> "" ->
  transformSelector cn sel = "html" ++ cn ++ " " ++ cleanSelector cn sel.
Proof.
  intros Hi Hne. unfold transformSelector. rewrite Hi.
  destruct (cleanSelector cn sel) as [|c s]; [congruence | reflexivity].
Qed.

Lemma transformSelector_root (cn sel : string) :
  cleanSelector cn sel = "" -> transformSelector cn sel = "html" ++ cn.
Proof.
  intros E. unfold transformSelector. rewrite E. reflexivity.
Qed.

Lemma transformSelector_occurs (cn sel : string) :
  noDollar cn = true -> occursIn ("html" ++ cn) (transformSelector cn sel).
Proof.
  intros Hd.
  destruct (indexOf (cleanSelector cn sel) "html") as [i|] eqn:Hi.
  - rewrite (transformSelector_html _ _ _ Hd Hi).
    exists (take i (cleanSelector cn sel)),
           (drop (i + 4) (cleanSelector cn sel)).
    now rewrite (app_assoc "html").
  - assert (Hinc : includes (cleanSelector cn sel) "html" = false)
      by (unfold includes; now rewrite Hi).
    destruct (cleanSelector cn sel) as [|c s] eqn:E.
    + rewrite (transformSelector_root _ _ E).
      exists "", "". now rewrite app_nil_r.
    + rewrite transformSelector_prefix; rewrite ?E; try congruence.
      exists "", (" " ++ String c s). now rewrite (app_assoc "html").
Qed.

Lemma occursIn_weaken (a p s : string) : occursIn (a ++ p) s -> occursIn p s.
Proof.
  intros (x & y & ->). exists (x ++ a), y. now rewrite !app_assoc.
Qed.

End SelectorFacts.

(** ** The visit hook *)

Section HookFacts.

Variable options : IPluginOptions.

Lemma walkDecls_spec (ns : list ChildNode) (nw w : list Declaration) :
  walkDecls options ns nw w
  = (keptNodes options ns,
     ((nw ++ map (fun d => mkDecl (prop d) (value d))
                 (matchedDecls options ns))%list,
      (w ++ map (fun d => mkDecl (prop d) (rename options d))
                (matchedDecls options ns))%list)).
Proof.
  revert nw w; induction ns as [|[d|t] ns IH]; intros nw w; simpl.
  - now rewrite !List.app_nil_r.
  - destruct (predicate options d) eqn:Hp; simpl.
    + rewrite IH, <- !List.app_assoc. reflexivity.
    + rewrite IH. reflexivity.
  - rewrite IH. reflexivity.
Qed.

Lemma keptNodes_none (ns : list ChildNode) :
  matchedDecls options ns = [] -> keptNodes options ns = ns.
Proof.
  induction ns as [|[d|t] ns IH]; simpl; intros H; try reflexivity.
  - destruct (predicate options d); [discriminate|].
    simpl. now rewrite IH.
  - now rewrite IH.
Qed.

Lemma matchedDecls_none (ns : list ChildNode) :
  (forall d, In (Decl d) ns -> predicate options d = false) ->
  matchedDecls options ns = [].
Proof.
  induction ns as [|[d|t] ns IH]; simpl; intros H; try reflexivity.
  - rewrite (H d) by now left. apply IH. intros d' Hd. apply H. now right.
  - apply IH. intros d' Hd. apply H. now right.
Qed.


Lemma setNodes_same (rule : Rule) : setNodes rule (nodes rule) = rule.
Proof. now destruct rule. Qed.

Lemma visitRule_skipped (st : Store) (rule : Rule) :
  skipped options rule = true -> visitRule options st rule = (st, rule).
Proof. unfold skipped, visitRule. now intros ->. Qed.

Lemma visitRule_nomatch (st : Store) (rule : Rule) :
  matchedDecls options (nodes rule) = [] ->
  visitRule options st rule = (st, rule).
Proof.
  intros H. unfold visitRule.
  destruct (includes _ _); [reflexivity|].
  rewrite walkDecls_spec, H, (keptNodes_none _ H), setNodes_same.
  reflexivity.
Qed.

Lemma visitRule_splits (st : Store) (rule : Rule) :
  splits options rule = true ->
  visitRule options st rule
  = (mkStore (Map_set (noWebpRules st) (ref rule)
                      (noWebpVariant options rule (fresh st)))
             (Map_set (webpRules st) (ref rule)
                      (webpVariant options rule (S (fresh st))))
             (S (S (fresh st))),
     strippedRule options rule).
Proof.
  unfold splits, strippedRule, skipped, visitRule, noWebpVariant, webpVariant.
  destruct (includes _ _); [discriminate|]. simpl.
  rewrite walkDecls_spec.
  destruct (matchedDecls options (nodes rule)) as [|d ds]; [discriminate|].
  reflexivity.
Qed.

Lemma visitRule_nosplit (st : Store) (rule : Rule) :
  splits options rule = false ->
  visitRule options st rule = (st, strippedRule options rule).
Proof.
  unfold splits, strippedRule. intros H.
  destruct (skipped options rule) eqn:Hs.
  - now apply visitRule_skipped.
  - simpl in H.
    destruct (matchedDecls options (nodes rule)) as [|d ds] eqn:Hm;
      [|discriminate].
    rewrite (visitRule_nomatch _ _ Hm), (keptNodes_none _ Hm), setNodes_same.
    reflexivity.
Qed.

Lemma visitRule_rule (st : Store) (rule : Rule) :
  snd (visitRule options st rule) = strippedRule options rule.
Proof.
  destruct (splits options rule) eqn:H.
  - now rewrite visitRule_splits.
  - now rewrite visitRule_nosplit.
Qed.


End HookFacts.

(** ** The walk and the finalizer *)

Lemma Node_induction (P : Node -> Prop) :
  (forall r, P (RuleNode r)) ->
  (forall name params children,
      Forall P children -> P (AtRule name params children)) ->
  (forall c, P (Other c)) ->
  forall n, P n.
Proof.
  intros HR HA HO. fix IH 1. intros [r|name params children|c].
  - apply HR.
  - apply HA. revert children. fix IHl 1. intros [|n ns].
    + constructor.
    + constructor; [apply IH | apply IHl].
  - apply HO.
Qed.

Lemma forest_induction (P : Node -> Prop) (Q : list Node -> Prop) :
  (forall r, P (RuleNode r)) ->
  (forall name params children, Q children -> P (AtRule name params children)) ->
  (forall c, P (Other c)) ->
  Q [] ->
  (forall n ns, P n -> Q ns -> Q (n :: ns)) ->
  forall ns, Q ns.
Proof.
  intros HR HA HO HN HC.
  assert (HP : forall n, P n).
  { induction n as [r|name params children IH|c] using Node_induction; auto.
    apply HA. induction IH; auto. }
  induction ns; auto.
Qed.

Section WalkFacts.

Variable options : IPluginOptions.

Lemma visitAll_app (st : Store) (l1 l2 : list Rule) :
  visitAll options st (l1 ++ l2) = visitAll options (visitAll options st l1) l2.
Proof. apply fold_left_app. Qed.

Lemma walk_spec (root : list Node) (st : Store) :
  walk options st root
  = (visitAll options st (rulesOf root), map (stripNode options) root).
Proof.
  revert st. pattern root.
  apply forest_induction with
    (P := fun n => forall st,
              walkNode options st n
              = (visitAll options st (rulesOfNode n), stripNode options n));
    clear root.
  - intros r st. simpl.
    destruct (visitRule options st r) as [st' r'] eqn:E.
    pose proof (visitRule_rule options st r) as Hr. rewrite E in Hr.
    simpl in Hr. now subst r'.
  - intros name params children IH st.
    change (walkNode options st (AtRule name params children))
      with (let '(st', children') := walk options st children in
            (st', AtRule name params children')).
    rewrite IH. reflexivity.
  - reflexivity.
  - reflexivity.
  - intros n ns Hn Hns st. simpl. rewrite Hn, Hns.
    unfold rulesOf. simpl. now rewrite visitAll_app.
Qed.


End WalkFacts.

Section FinalizerFacts.









End FinalizerFacts.

Section StoreFacts.

Variable options : IPluginOptions.













End StoreFacts.

Section TransformFacts.

Variable options : IPluginOptions.





End TransformFacts.

(** ** A second run *)

Section ExpandFacts.

Variable options : IPluginOptions.




Lemma matchedDecls_kept (ns : list ChildNode) :
  matchedDecls options (keptNodes options ns) = [].
Proof.
  induction ns as [|[d|t] ns IH]; simpl; auto.
  destruct (predicate options d) eqn:E; simpl; [exact IH|].
  now rewrite E.
Qed.










Hypothesis renamed_no_match :
  forall d, predicate options d = true ->
            predicate options (mkDecl (prop d) (rename options d)) = false.
Hypothesis class_plain : noDollar (noWebpClass options) = true.




End ExpandFacts.

(** ** The two patterns *)

Section PatternFacts.

Local Arguments chr_eq : simpl never.
Local Arguments ciPrefix : simpl never.
Local Arguments drop : simpl never.

Ltac split_atoms :=
  repeat match goal with
         | |- context [chr_eq true ?p ?c] =>
             destruct (chr_eq true p c) eqn:?; simpl
         end.

(** A literal word matches what starts with it, up to case. *)
Lemma matcher_word (w : string) :
  forall (c : ascii) (s : string) (k : string -> option string),
    matcher true (word c w) s k
    = if ciPrefix (String c w) s then k (drop (S (String.length w)) s)
      else None.
Proof.
  induction w as [|d w IH]; intros c s k.
  - destruct s as [|x s]; [reflexivity|].
    change (matcher true (Chr c) (String x s) k)
      with (if chr_eq true c x then k s else None).
    change (ciPrefix (String c "") (String x s)) with (chr_eq true c x && true).
    rewrite andb_true_r. reflexivity.
  - destruct s as [|x s]; [reflexivity|].
    change (matcher true (word c (String d w)) (String x s) k)
      with (if chr_eq true c x then matcher true (word d w) s k else None).
    rewrite IH.
    change (ciPrefix (String c (String d w)) (String x s))
      with (chr_eq true c x && ciPrefix (String d w) s).
    destruct (chr_eq true c x); reflexivity.
Qed.

Lemma matcher_jpeg (s : string) :
  matcher true
    (Cat (Chr "j") (Cat (Chr "p") (Cat (Opt (Chr "e")) (Chr "g")))) s Some
  = if ciPrefix "jpeg" s then Some (drop 4 s)
    else if ciPrefix "jpg" s then Some (drop 3 s) else None.
Proof.
  destruct s as [|c0 [|c1 [|c2 [|c3 s]]]]; cbv [ciPrefix]; simpl;
    split_atoms; reflexivity.
Qed.

Lemma firstToken_cons (a c : ascii) (tails : list string) (s : string) :
  firstToken (map (String a) tails) (String c s)
  = if chr_eq true a c then firstToken tails s else None.
Proof.
  induction tails as [|t tails IH]; cbn [map firstToken].
  - now destruct (chr_eq true a c).
  - rewrite IH.
    change (ciPrefix (String a t) (String c s))
      with (chr_eq true a c && ciPrefix t s).
    destruct (chr_eq true a c); reflexivity.
Qed.

Lemma matcher_kinds (s : string) :
  matcher true
    (Alt (word "p" "ng") (Alt (word "g" "if") (word "a" "vif"))) s Some
  = firstToken ["png"; "gif"; "avif"] s.
Proof.
  cbn [matcher firstToken]. rewrite !matcher_word.
  destruct (ciPrefix "png" s); [reflexivity|].
  destruct (ciPrefix "gif" s); [reflexivity|].
  destruct (ciPrefix "avif" s); reflexivity.
Qed.

(** The extension pattern tries the words of [extensionTokens] in
    order. *)
Lemma matchAt_extension (s : string) :
  matchAt extensionPattern s = firstToken extensionTokens s.
Proof.
  unfold matchAt, extensionPattern, extensionTokens.
  cbn [source ignoreCase].
  destruct s as [|c s]; [reflexivity|].
  match goal with
  | |- matcher true (Cat (Chr ".") (Alt ?a ?b)) (String c s) Some = _ =>
      change (matcher true (Cat (Chr ".") (Alt a b)) (String c s) Some)
        with (if chr_eq true "." c
              then match matcher true a s Some with
                   | Some rest => Some rest
                   | None => matcher true b s Some
                   end
              else None)
  end.
  rewrite matcher_jpeg, matcher_kinds.
  change [".jpeg"; ".jpg"; ".png"; ".gif"; ".avif"]
    with (map (String ".") ["jpeg"; "jpg"; "png"; "gif"; "avif"]).
  rewrite firstToken_cons. cbn [firstToken String.length].
  destruct (chr_eq true "." c); [|reflexivity].
  destruct (ciPrefix "jpeg" s); [reflexivity|].
  destruct (ciPrefix "jpg" s); reflexivity.
Qed.

Lemma ciPrefix_app (a b s : string) :
  ciPrefix (a ++ b) s = ciPrefix a s && ciPrefix b (drop (String.length a) s).
Proof.
  revert s; induction a as [|x a IH]; intros s.
  - reflexivity.
  - destruct s as [|c s]; [reflexivity|].
    change (ciPrefix (String x a ++ b) (String c s))
      with (chr_eq true x c && ciPrefix (a ++ b) s).
    change (ciPrefix (String x a) (String c s))
      with (chr_eq true x c && ciPrefix a s).
    change (drop (String.length (String x a)) (String c s))
      with (drop (String.length a) s).
    rewrite IH. now rewrite andb_assoc.
Qed.

Lemma firstToken_prefix (p : string) (tails : list string) (s : string) :
  firstToken (map (append p) tails) s
  = if ciPrefix p s then firstToken tails (drop (String.length p) s) else None.
Proof.
  induction tails as [|t tails IH]; cbn [map firstToken].
  - now destruct (ciPrefix p s).
  - rewrite IH, ciPrefix_app, length_app, drop_add.
    destruct (ciPrefix p s); reflexivity.
Qed.

Lemma matchAt_mime (s : string) :
  matchAt mimePattern s = firstToken mimeTokens s.
Proof.
  unfold matchAt, mimePattern, mimeTokens.
  cbn [source ignoreCase].
  change ["image/jpeg"; "image/png"; "image/gif"; "image/avif"]
    with (map (append "image/") ["jpeg"; "png"; "gif"; "avif"]).
  rewrite firstToken_prefix.
  change (String.length "image/") with (5 + 1). rewrite drop_add.
  change "image/" with ("image" ++ "/").
  rewrite ciPrefix_app.
  match goal with
  | |- matcher true (Cat ?w ?r) s Some = _ =>
      change (matcher true (Cat w r) s Some)
        with (matcher true w s (fun s' => matcher true r s' Some))
  end.
  rewrite matcher_word.
  destruct (ciPrefix "image" s); [|reflexivity].
  cbn [andb String.length].
  destruct (drop 5 s) as [|c s']; [reflexivity|].
  match goal with
  | |- matcher true (Cat (Chr "/") ?r) (String c s') Some = _ =>
      change (matcher true (Cat (Chr "/") r) (String c s') Some)
        with (if chr_eq true "/" c then matcher true r s' Some else None)
  end.
  change (ciPrefix "/" (String c s')) with (chr_eq true "/" c && true).
  rewrite andb_true_r.
  destruct (chr_eq true "/" c); [|reflexivity].
  change (drop 1 (String c s')) with s'.
  cbn [matcher firstToken String.length]. rewrite !matcher_word.
  destruct (ciPrefix "jpeg" s'); [reflexivity|].
  destruct (ciPrefix "png" s'); [reflexivity|].
  destruct (ciPrefix "gif" s'); [reflexivity|].
  destruct (ciPrefix "avif" s'); reflexivity.
Qed.

End PatternFacts.

(** *** Scanning with a pattern that tries a list of words *)

Section Scan.

Local Arguments chr_eq : simpl never.

Variable re : RegExp.
Variable toks : list string.
Variable r : string.

Hypothesis re_toks : forall s, matchAt re s = firstToken toks s.
Hypothesis toks_nonempty : forall tok, In tok toks -> tok <> "".

Lemma ciPrefix_length (tok s : string) :
  ciPrefix tok s = true -> String.length tok <= String.length s.
Proof.
  revert s; induction tok as [|a tok IH]; intros [|c s]; simpl; intros H;
    try lia; try discriminate.
  apply andb_true_iff in H as [_ H]. apply IH in H. lia.
Qed.

Lemma length_drop (n : nat) (s : string) :
  String.length (drop n s) = String.length s - n.
Proof.
  revert s; induction n as [|n IH]; intros [|c s]; simpl; auto.
Qed.

Lemma firstToken_Some (s rest : string) :
  firstToken toks s = Some rest ->
  exists tok, In tok toks /\ ciPrefix tok s = true
              /\ rest = drop (String.length tok) s.
Proof.
  clear re_toks toks_nonempty.
  induction toks as [|tok toks' IH]; simpl; [discriminate|].
  destruct (ciPrefix tok s) eqn:E.
  - intros [= <-]. exists tok. auto.
  - intros H. destruct (IH H) as (tok' & Hin & Hp & Hr). exists tok'. auto.
Qed.

Lemma firstToken_startsAny (s : string) :
  startsAny toks s = match firstToken toks s with Some _ => true | None => false end.
Proof.
  clear re_toks toks_nonempty. unfold startsAny.
  induction toks as [|tok toks' IH]; simpl; [reflexivity|].
  destruct (ciPrefix tok s); simpl; [reflexivity | exact IH].
Qed.

Lemma firstToken_None (s : string) :
  startsAny toks s = false -> firstToken toks s = None.
Proof.
  rewrite firstToken_startsAny. now destruct (firstToken toks s).
Qed.

Lemma firstToken_empty : firstToken toks "" = None.
Proof.
  destruct (firstToken toks "") as [rest|] eqn:E; [|reflexivity].
  apply firstToken_Some in E as (tok & Hin & Hp & _).
  destruct tok; [now apply toks_nonempty in Hin | discriminate].
Qed.

Lemma replaceAll_empty : replaceAll "" re r = "".
Proof.
  unfold replaceAll. simpl. now rewrite re_toks, firstToken_empty.
Qed.

Lemma replaceFrom_drop (k : nat) (s : string) :
  replaceFrom re r k s = replaceFrom re r 0 (drop k s).
Proof.
  revert s; induction k as [|k IH]; intros s.
  - now destruct s.
  - destruct s as [|c s]; [symmetry; apply replaceAll_empty|]. simpl. apply IH.
Qed.

Lemma replaceAll_match (s rest : string) :
  firstToken toks s = Some rest ->
  replaceAll s re r = r ++ replaceAll rest re r.
Proof.
  intros H. destruct (firstToken_Some _ _ H) as (tok & Hin & Hp & Hr).
  pose proof (ciPrefix_length _ _ Hp) as Hl.
  pose proof (toks_nonempty _ Hin) as Hne.
  unfold replaceAll.
  destruct tok as [|a tok]; [congruence|].
  destruct s as [|c s]; [discriminate|].
  change (drop (String.length (String a tok)) (String c s))
    with (drop (String.length tok) s) in Hr.
  cbn [replaceFrom]. rewrite re_toks, H.
  assert (E : String.length (String c s) - String.length rest
              = S (String.length tok)).
  { rewrite Hr, length_drop.
    change (String.length (String c s)) with (S (String.length s)) in *.
    change (String.length (String a tok)) with (S (String.length tok)) in *.
    lia. }
  rewrite E, replaceFrom_drop, <- Hr. reflexivity.
Qed.

Lemma replaceAll_copy (c : ascii) (s : string) :
  firstToken toks (String c s) = None ->
  replaceAll (String c s) re r = String c (replaceAll s re r).
Proof.
  intros H. unfold replaceAll. cbn [replaceFrom]. now rewrite re_toks, H.
Qed.

Lemma test_eq (s : string) :
  test re s
  = startsAny toks s
    || match s with "" => false | String _ s' => test re s' end.
Proof.
  rewrite firstToken_startsAny, <- re_toks.
  destruct s; simpl; destruct (matchAt re _); reflexivity.
Qed.

Lemma test_drop (n : nat) (s : string) :
  test re s = false -> test re (drop n s) = false.
Proof.
  revert s; induction n as [|n IH]; intros s H; [now destruct s|].
  destruct s as [|c s]; [exact H|]. simpl. apply IH.
  rewrite test_eq in H. now apply orb_false_iff in H as [_ H].
Qed.

(** Induction along the scan. *)
Lemma scan_induction (P : string -> Prop) :
  P "" ->
  (forall s rest, firstToken toks s = Some rest -> P rest -> P s) ->
  (forall c s, firstToken toks (String c s) = None -> P s -> P (String c s)) ->
  forall s, P s.
Proof.
  intros H0 Hm Hc s.
  remember (String.length s) as n eqn:Hn. revert s Hn.
  induction n as [n IH] using lt_wf_ind. intros s Hn.
  destruct (firstToken toks s) as [rest|] eqn:E.
  - apply (Hm s rest E).
    destruct (firstToken_Some _ _ E) as (tok & Hin & Hp & Hr).
    pose proof (ciPrefix_length _ _ Hp) as Hl.
    pose proof (toks_nonempty _ Hin) as Hne.
    apply (IH (String.length rest)); [|reflexivity].
    rewrite Hr, length_drop. destruct tok; [congruence|]. simpl in *. lia.
  - destruct s as [|c s]; [exact H0|].
    apply (Hc c s E). apply (IH (String.length s)); [|reflexivity].
    subst n. simpl. lia.
Qed.

End Scan.

(** *** What the default rename leaves behind *)

Section RenameFacts.

Local Arguments chr_eq : simpl never.
Local Arguments ciPrefix : simpl never.
Local Arguments drop : simpl never.

Lemma chr_eq_same (p c : ascii) :
  chr_eq true p c = true -> forall q, chr_eq true q c = chr_eq true q p.
Proof.
  unfold chr_eq. intros H q. apply Ascii.eqb_eq in H. now rewrite H.
Qed.

Lemma ciPrefix_cons (a c : ascii) (u s : string) :
  ciPrefix (String a u) (String c s) = chr_eq true a c && ciPrefix u s.
Proof. reflexivity. Qed.

Lemma ciPrefix_nil (a : ascii) (u : string) : ciPrefix (String a u) "" = false.
Proof. reflexivity. Qed.

Lemma extensionTokens_nonempty (tok : string) :
  In tok extensionTokens -> tok <> "".
Proof. simpl. intuition (subst; discriminate). Qed.

Lemma mimeTokens_nonempty (tok : string) : In tok mimeTokens -> tok <> "".
Proof. simpl. intuition (subst; discriminate). Qed.

Lemma extension_starts (s rest : string) :
  firstToken extensionTokens s = Some rest ->
  exists c s', s = String c s' /\ chr_eq true "." c = true.
Proof.
  destruct s as [|c s']; [discriminate|].
  change extensionTokens
    with (map (String ".") ["jpeg"; "jpg"; "png"; "gif"; "avif"]).
  rewrite firstToken_cons.
  destruct (chr_eq true "." c) eqn:E; [|discriminate].
  intros _. now exists c, s'.
Qed.

Lemma mime_starts (s rest : string) :
  firstToken mimeTokens s = Some rest ->
  exists c d s', s = String c (String d s')
                 /\ chr_eq true "i" c = true /\ chr_eq true "m" d = true.
Proof.
  change mimeTokens
    with (map (append "im") ["age/jpeg"; "age/png"; "age/gif"; "age/avif"]).
  rewrite firstToken_prefix.
  destruct s as [|c [|d s']].
  - discriminate.
  - rewrite ciPrefix_cons, ciPrefix_nil, andb_false_r. discriminate.
  - rewrite !ciPrefix_cons.
    destruct (chr_eq true "i" c) eqn:Hc; [|discriminate].
    destruct (chr_eq true "m" d) eqn:Hd; [|discriminate].
    intros _. exists c, d, s'. auto.
Qed.

(** Replacing the extensions does not change how a dot-free word
    compares with the start of a value. *)
Lemma extension_tail_agree (u : string) :
  dotFree u = true ->
  forall s, ciPrefix u (replaceAll s extensionPattern ".webp") = ciPrefix u s.
Proof.
  induction u as [|a u IH]; intros Hu s; [reflexivity|].
  simpl in Hu. apply andb_true_iff in Hu as [Ha Hu].
  apply negb_true_iff in Ha.
  destruct (firstToken extensionTokens s) as [rest|] eqn:E.
  - rewrite (replaceAll_match _ _ _ matchAt_extension
                              extensionTokens_nonempty _ _ E).
    destruct (extension_starts _ _ E) as (c & s' & -> & Hc).
    change (".webp" ++ ?x) with (String "." ("webp" ++ x)).
    rewrite !ciPrefix_cons, (chr_eq_same _ _ Hc), Ha. reflexivity.
  - destruct s as [|c s].
    + now rewrite (replaceAll_empty _ _ _ matchAt_extension
                                    extensionTokens_nonempty).
    + rewrite (replaceAll_copy _ _ _ matchAt_extension _ _ E).
      rewrite !ciPrefix_cons, IH by exact Hu. reflexivity.
Qed.

(** Nor does replacing the MIME tokens, for a word that has no [i] at
    its end or before an [m]. *)
Lemma mime_tail_agree (u : string) :
  imFree u = true ->
  forall s, ciPrefix u (replaceAll s mimePattern "image/webp") = ciPrefix u s.
Proof.
  induction u as [|a u IH]; intros Hu s; [reflexivity|].
  simpl in Hu. apply andb_true_iff in Hu as [Ha Hu].
  destruct (firstToken mimeTokens s) as [rest|] eqn:E.
  - rewrite (replaceAll_match _ _ _ matchAt_mime mimeTokens_nonempty _ _ E).
    destruct (mime_starts _ _ E) as (c & d & s' & -> & Hc & Hd).
    change ("image/webp" ++ ?x) with (String "i" (String "m" ("age/webp" ++ x))).
    rewrite !ciPrefix_cons, (chr_eq_same _ _ Hc).
    destruct (chr_eq true a "i"); [|reflexivity].
    destruct u as [|b u]; [discriminate|].
    apply negb_true_iff in Ha.
    rewrite !ciPrefix_cons, (chr_eq_same _ _ Hd), Ha. reflexivity.
  - destruct s as [|c s].
    + now rewrite (replaceAll_empty _ _ _ matchAt_mime mimeTokens_nonempty).
    + rewrite (replaceAll_copy _ _ _ matchAt_mime _ _ E).
      rewrite !ciPrefix_cons, IH by exact Hu. reflexivity.
Qed.

Lemma startsAny_extension (c : ascii) (s : string) :
  startsAny extensionTokens (String c s)
  = chr_eq true "." c
    && (ciPrefix "jpeg" s || ciPrefix "jpg" s || ciPrefix "png" s
        || ciPrefix "gif" s || ciPrefix "avif" s).
Proof.
  unfold startsAny, extensionTokens. cbn [existsb].
  rewrite !ciPrefix_cons. destruct (chr_eq true "." c); simpl.
  - now rewrite orb_false_r, !orb_assoc.
  - reflexivity.
Qed.

Lemma startsAny_mime (c : ascii) (s : string) :
  startsAny mimeTokens (String c s)
  = chr_eq true "i" c
    && (ciPrefix "mage/jpeg" s || ciPrefix "mage/png" s
        || ciPrefix "mage/gif" s || ciPrefix "mage/avif" s).
Proof.
  unfold startsAny, mimeTokens. cbn [existsb].
  rewrite !ciPrefix_cons. destruct (chr_eq true "i" c); simpl.
  - now rewrite orb_false_r, !orb_assoc.
  - reflexivity.
Qed.

Lemma test_cons (re : RegExp) (toks : list string) (c : ascii) (s : string) :
  (forall s, matchAt re s = firstToken toks s) ->
  startsAny toks (String c s) = false ->
  test re (String c s) = test re s.
Proof.
  intros Hre H. rewrite (test_eq re toks Hre), H. reflexivity.
Qed.

(** No extension is left after the first replacement. *)
Lemma extension_gone (s : string) :
  test extensionPattern (replaceAll s extensionPattern ".webp") = false.
Proof.
  pattern s.
  apply (scan_induction extensionTokens extensionTokens_nonempty); clear s.
  - now rewrite (replaceAll_empty _ _ _ matchAt_extension
                                  extensionTokens_nonempty).
  - intros s rest E IH.
    rewrite (replaceAll_match _ _ _ matchAt_extension
                              extensionTokens_nonempty _ _ E).
    change (".webp" ++ ?x)
      with (String "." (String "w" (String "e" (String "b" (String "p" x))))).
    rewrite !(test_cons _ _ _ _ matchAt_extension);
      first [exact IH | reflexivity].
  - intros c s E IH.
    rewrite (replaceAll_copy _ _ _ matchAt_extension _ _ E).
    rewrite (test_cons _ _ _ _ matchAt_extension); [exact IH|].
    rewrite startsAny_extension, !extension_tail_agree by reflexivity.
    rewrite <- startsAny_extension, firstToken_startsAny, E. reflexivity.
Qed.

(** Replacing the MIME tokens brings no extension back. *)
Lemma extension_stays_gone (s : string) :
  test extensionPattern s = false ->
  test extensionPattern (replaceAll s mimePattern "image/webp") = false.
Proof.
  pattern s. apply (scan_induction mimeTokens mimeTokens_nonempty); clear s.
  - intros _.
    now rewrite (replaceAll_empty mimePattern mimeTokens "image/webp"
                                  matchAt_mime mimeTokens_nonempty).
  - intros s rest E IH H.
    rewrite (replaceAll_match _ _ _ matchAt_mime mimeTokens_nonempty _ _ E).
    destruct (firstToken_Some _ _ _ E) as (tok & _ & _ & ->).
    apply (test_drop _ _ matchAt_extension (String.length tok)) in H.
    change ("image/webp" ++ ?x)
      with (String "i" (String "m" (String "a" (String "g" (String "e"
             (String "/" (String "w" (String "e" (String "b"
             (String "p" x)))))))))).
    rewrite !(test_cons _ _ _ _ matchAt_extension);
      first [exact (IH H) | reflexivity].
  - intros c s E IH H.
    rewrite (replaceAll_copy _ _ _ matchAt_mime _ _ E).
    rewrite (test_eq _ _ matchAt_extension) in H.
    apply orb_false_iff in H as [H1 H2].
    rewrite (test_eq _ _ matchAt_extension), (IH H2), orb_false_r.
    rewrite startsAny_extension, !mime_tail_agree by reflexivity.
    now rewrite <- startsAny_extension.
Qed.

(** No MIME token is left after the second replacement. *)
Lemma mime_gone (s : string) :
  test mimePattern (replaceAll s mimePattern "image/webp") = false.
Proof.
  pattern s. apply (scan_induction mimeTokens mimeTokens_nonempty); clear s.
  - now rewrite (replaceAll_empty _ _ _ matchAt_mime mimeTokens_nonempty).
  - intros s rest E IH.
    rewrite (replaceAll_match _ _ _ matchAt_mime mimeTokens_nonempty _ _ E).
    change ("image/webp" ++ ?x)
      with (String "i" (String "m" (String "a" (String "g" (String "e"
             (String "/" (String "w" (String "e" (String "b"
             (String "p" x)))))))))).
    rewrite !(test_cons _ _ _ _ matchAt_mime);
      first [exact IH | reflexivity].
  - intros c s E IH.
    rewrite (replaceAll_copy _ _ _ matchAt_mime _ _ E).
    rewrite (test_cons _ _ _ _ matchAt_mime); [exact IH|].
    rewrite startsAny_mime, !mime_tail_agree by reflexivity.
    rewrite <- startsAny_mime, firstToken_startsAny, E. reflexivity.
Qed.

(** The value of a capable declaration does not match the default
    classifier. *)
Lemma defaultRename_no_match (d : Declaration) :
  defaultPredicate (mkDecl (prop d) (defaultRename d)) = false.
Proof.
  unfold defaultPredicate, defaultRename. simpl value.
  apply extension_stays_gone, extension_gone.
Qed.

End RenameFacts.

(** ** A value cut into pieces *)

Section PieceFacts.

Local Arguments chr_eq : simpl never.
Local Arguments ciPrefix : simpl never.
Local Arguments drop : simpl never.

(** A word tail never starts what follows a piece of plain text. *)
Lemma stops_blocks (u y : string) :
  u <> "" -> dotFree u = true -> imFree u = true -> stops y = true ->
  ciPrefix u y = false.
Proof.
  intros Hne Hd Hi Hy. destruct u as [|a u]; [congruence|].
  destruct y as [|c y]; [reflexivity|].
  rewrite ciPrefix_cons. simpl in Hd, Hi, Hy.
  apply andb_true_iff in Hd as [Hd _]. apply negb_true_iff in Hd.
  apply andb_true_iff in Hi as [Hi _].
  apply orb_true_iff in Hy as [Hy|Hy].
  - rewrite (chr_eq_same _ _ Hy), Hd. reflexivity.
  - apply andb_true_iff in Hy as [Hc Hm].
    rewrite (chr_eq_same _ _ Hc).
    destruct (chr_eq true a "i"); [|reflexivity].
    destruct u as [|b u]; [discriminate|].
    destruct y as [|d y]; [discriminate|].
    apply negb_true_iff in Hi.
    rewrite ciPrefix_cons, (chr_eq_same _ _ Hm), Hi. reflexivity.
Qed.

Lemma ciPrefix_stops (u : string) :
  dotFree u = true -> imFree u = true ->
  forall t y, stops y = true -> ciPrefix u (t ++ y) = ciPrefix u t.
Proof.
  induction u as [|a u IH]; intros Hd Hi t y Hy; [reflexivity|].
  destruct t as [|c t].
  - simpl append. rewrite ciPrefix_nil.
    apply stops_blocks; auto. discriminate.
  - simpl append. rewrite !ciPrefix_cons. f_equal.
    simpl in Hd, Hi.
    apply andb_true_iff in Hd as [_ Hd]. apply andb_true_iff in Hi as [_ Hi].
    now apply IH.
Qed.

Lemma startsAny_stops (toks : list string) (c : ascii) (t y : string) :
  goodTokens toks = true -> stops y = true ->
  startsAny toks (String c t ++ y) = startsAny toks (String c t).
Proof.
  intros Hg Hy. unfold startsAny.
  induction toks as [|tok toks IH]; [reflexivity|].
  simpl in Hg. apply andb_true_iff in Hg as [Htok Hg].
  cbn [existsb]. rewrite (IH Hg). f_equal.
  destruct tok as [|a u]; [discriminate|].
  apply andb_true_iff in Htok as [Hd Hi].
  simpl append. rewrite !ciPrefix_cons. f_equal.
  now apply ciPrefix_stops.
Qed.

Lemma ciEqual_length (tok k : string) :
  ciEqual tok k = true -> String.length k = String.length tok.
Proof.
  revert k; induction tok as [|a tok IH]; intros [|c k]; simpl;
    try discriminate; auto.
  intros H. apply andb_true_iff in H as [_ H]. now rewrite (IH _ H).
Qed.

Lemma ciEqual_ciPrefix (tok k : string) :
  ciEqual tok k = true ->
  forall q y, ciPrefix q (k ++ y) = ciPrefix q (tok ++ y).
Proof.
  revert k; induction tok as [|a tok IH]; intros [|c k]; simpl;
    try discriminate; auto.
  intros H q y. apply andb_true_iff in H as [Hc H].
  destruct q as [|b q]; [reflexivity|].
  rewrite !ciPrefix_cons, (chr_eq_same _ _ Hc), (IH _ H). reflexivity.
Qed.

Lemma ciEqual_noneOf (p : ascii) (tok k : string) :
  ciEqual tok k = true -> noneOf p tok = true -> noneOf p k = true.
Proof.
  revert k; induction tok as [|a tok IH]; intros [|c k]; simpl;
    try discriminate; auto.
  intros H Hn. apply andb_true_iff in H as [Hc H].
  apply andb_true_iff in Hn as [Ha Hn].
  rewrite (chr_eq_same _ _ Hc), Ha. simpl. now apply IH.
Qed.

Lemma ciEqual_stops (a b : ascii) (tok k y : string) :
  ciEqual (String a (String b tok)) k = true ->
  stops (k ++ y) = stops (String a (String b "")).
Proof.
  destruct k as [|c [|d k]]; simpl; try discriminate.
  - rewrite andb_false_r. discriminate.
  - intros H. apply andb_true_iff in H as [Hc H].
    apply andb_true_iff in H as [Hd _].
    now rewrite !(chr_eq_same _ _ Hc), (chr_eq_same _ _ Hd).
Qed.

Lemma isToken_ciEqual (toks : list string) (k : string) :
  isToken toks k = true -> exists tok, In tok toks /\ ciEqual tok k = true.
Proof.
  unfold isToken. intros H. apply existsb_exists in H as (tok & Hin & H).
  now exists tok.
Qed.

(** An occurrence of a word is found where it stands. *)
Lemma firstToken_ciEqual (toks : list string) (tok k y : string) :
  ciEqual tok k = true ->
  firstToken toks (tok ++ y) = Some y ->
  firstToken toks (k ++ y) = Some y.
Proof.
  intros Hk. induction toks as [|tok' toks IH]; cbn [firstToken]; auto.
  rewrite (ciEqual_ciPrefix _ _ Hk).
  destruct (ciPrefix tok' (tok ++ y)) eqn:E; [|exact IH].
  intros [= H]. f_equal.
  assert (Hl : String.length tok' = String.length tok).
  { pose proof (ciPrefix_length _ _ E) as Hle.
    pose proof (f_equal String.length H) as Hlen.
    rewrite length_drop, length_app in Hlen.
    rewrite length_app in Hle. lia. }
  rewrite Hl, <- (ciEqual_length _ _ Hk). apply drop_app.
Qed.

Lemma extension_found (k y : string) :
  isToken extensionTokens k = true ->
  firstToken extensionTokens (k ++ y) = Some y.
Proof.
  intros H. apply isToken_ciEqual in H as (tok & Hin & Hk).
  apply (firstToken_ciEqual _ _ _ _ Hk).
  simpl in Hin. decompose [or] Hin; subst; try contradiction; reflexivity.
Qed.

Lemma mime_found (k y : string) :
  isToken mimeTokens k = true ->
  firstToken mimeTokens (k ++ y) = Some y.
Proof.
  intros H. apply isToken_ciEqual in H as (tok & Hin & Hk).
  apply (firstToken_ciEqual _ _ _ _ Hk).
  simpl in Hin. decompose [or] Hin; subst; try contradiction; reflexivity.
Qed.

End PieceFacts.

Section Pass.

Local Arguments chr_eq : simpl never.
Local Arguments ciPrefix : simpl never.
Local Arguments drop : simpl never.

Variable re : RegExp.
Variable toks : list string.
Variable r : string.
Variable f : string -> string.

Hypothesis re_toks : forall s, matchAt re s = firstToken toks s.
Hypothesis toks_nonempty : forall tok, In tok toks -> tok <> "".
Hypothesis toks_good : goodTokens toks = true.

(** Plain text is copied. *)
Lemma replaceAll_text (t y : string) :
  test re t = false -> stops y = true ->
  replaceAll (t ++ y) re r = t ++ replaceAll y re r.
Proof.
  intros Ht Hy. induction t as [|c t IH]; [reflexivity|].
  rewrite (test_eq _ _ re_toks) in Ht.
  apply orb_false_iff in Ht as [H1 H2].
  change (String c t ++ y) with (String c (t ++ y)).
  rewrite (replaceAll_copy _ _ _ re_toks).
  - simpl. now rewrite IH.
  - apply firstToken_None.
    change (String c (t ++ y)) with (String c t ++ y).
    now rewrite startsAny_stops.
Qed.

(** One replacement over a value cut into pieces. *)
Lemma replaceAll_assemble (segments : list (string * string)) (last : string) :
  (forall seg, In seg segments ->
               test re (fst seg) = false
               /\ (forall y, stops (snd seg ++ y) = true)
               /\ (forall y, replaceAll (snd seg ++ y) re r
                             = f (snd seg) ++ replaceAll y re r)) ->
  test re last = false ->
  replaceAll (assemble segments last) re r
  = assemble (map (fun seg => (fst seg, f (snd seg))) segments) last.
Proof.
  intros Hs Hl. induction segments as [|[t k] segments IH]; simpl.
  - rewrite <- (app_nil_r last) at 1.
    rewrite replaceAll_text by auto.
    rewrite (replaceAll_empty _ _ _ re_toks toks_nonempty).
    apply app_nil_r.
  - destruct (Hs (t, k) (or_introl eq_refl)) as (Ht & Hstop & Hk).
    simpl in Ht, Hstop, Hk.
    rewrite replaceAll_text, Hk, IH; auto.
    intros seg Hin. apply Hs. now right.
Qed.

(** A piece without the first character of the words is copied. *)
Lemma replaceAll_skip (a : ascii) (tails : list string) (k y : string) :
  toks = map (String a) tails -> noneOf a k = true ->
  replaceAll (k ++ y) re r = k ++ replaceAll y re r.
Proof.
  intros Ht Hk. induction k as [|c k IH]; [reflexivity|].
  simpl in Hk. apply andb_true_iff in Hk as [Hc Hk].
  apply negb_true_iff in Hc.
  change (String c k ++ y) with (String c (k ++ y)).
  rewrite (replaceAll_copy _ _ _ re_toks).
  - simpl. now rewrite IH.
  - rewrite Ht, firstToken_cons, Hc. reflexivity.
Qed.

End Pass.

Section RenamePieces.

Local Arguments chr_eq : simpl never.
Local Arguments ciPrefix : simpl never.
Local Arguments drop : simpl never.

Lemma extension_token_stops (k y : string) :
  isToken extensionTokens k = true -> stops (k ++ y) = true.
Proof.
  intros H. apply isToken_ciEqual in H as (tok & Hin & Hk).
  simpl in Hin. decompose [or] Hin; subst; try contradiction;
    now rewrite (ciEqual_stops _ _ _ _ _ Hk).
Qed.

Lemma mime_token_stops (k y : string) :
  isToken mimeTokens k = true -> stops (k ++ y) = true.
Proof.
  intros H. apply isToken_ciEqual in H as (tok & Hin & Hk).
  simpl in Hin. decompose [or] Hin; subst; try contradiction;
    now rewrite (ciEqual_stops _ _ _ _ _ Hk).
Qed.

Lemma mime_token_dotless (k : string) :
  isToken mimeTokens k = true -> noneOf "." k = true.
Proof.
  intros H. apply isToken_ciEqual in H as (tok & Hin & Hk).
  apply (ciEqual_noneOf _ _ _ Hk).
  simpl in Hin. decompose [or] Hin; subst; try contradiction; reflexivity.
Qed.

(** The first replacement, piece by piece. *)
Lemma extension_pass (segments : list (string * string)) (last : string) :
  cutValue segments last = true ->
  replaceAll (assemble segments last) extensionPattern ".webp"
  = assemble
      (map (fun seg => (fst seg,
                        if isToken extensionTokens (snd seg) then ".webp"
                        else snd seg)) segments)
      last.
Proof.
  unfold cutValue, plainText. intros H.
  apply andb_true_iff in H as [Hs Hl].
  apply andb_true_iff in Hl as [Hl _]. apply negb_true_iff in Hl.
  rewrite forallb_forall in Hs.
  apply (replaceAll_assemble extensionPattern extensionTokens ".webp"
           (fun k => if isToken extensionTokens k then ".webp" else k)
           matchAt_extension extensionTokens_nonempty eq_refl);
    [|exact Hl].
  intros [t k] Hin. specialize (Hs _ Hin). cbn [fst snd] in *.
  apply andb_true_iff in Hs as [Ht Hk].
  apply andb_true_iff in Ht as [Ht _]. apply negb_true_iff in Ht.
  split; [exact Ht|].
  destruct (isToken extensionTokens k) eqn:Hext.
  - split; intros y.
    + now apply extension_token_stops.
    + apply (replaceAll_match _ _ _ matchAt_extension
                              extensionTokens_nonempty).
      now apply extension_found.
  - cbn [orb] in Hk. split; intros y.
    + now apply mime_token_stops.
    + apply (replaceAll_skip _ _ _ matchAt_extension "."
                             ["jpeg"; "jpg"; "png"; "gif"; "avif"]);
        [reflexivity | now apply mime_token_dotless].
Qed.

(** The second replacement over the result of the first. *)
Lemma mime_pass (segments : list (string * string)) (last : string) :
  cutValue segments last = true ->
  replaceAll
    (assemble
       (map (fun seg => (fst seg,
                         if isToken extensionTokens (snd seg) then ".webp"
                         else snd seg)) segments)
       last)
    mimePattern "image/webp"
  = assemble (map (fun seg => (fst seg, renamedToken (snd seg))) segments) last.
Proof.
  unfold cutValue, plainText. intros H.
  apply andb_true_iff in H as [Hs Hl].
  apply andb_true_iff in Hl as [_ Hl]. apply negb_true_iff in Hl.
  rewrite forallb_forall in Hs.
  rewrite (replaceAll_assemble mimePattern mimeTokens "image/webp"
             (fun k => if isToken mimeTokens k then "image/webp" else k)
             matchAt_mime mimeTokens_nonempty eq_refl).
  - rewrite map_map. f_equal. apply map_ext_in.
    intros [t k] Hin. specialize (Hs _ Hin). cbn [fst snd] in *.
    apply andb_true_iff in Hs as [_ Hk]. unfold renamedToken. f_equal.
    destruct (isToken extensionTokens k) eqn:Hext; cbn [orb] in Hk.
    + reflexivity.
    + now rewrite Hk.
  - intros seg Hin. apply in_map_iff in Hin as ([t k] & <- & Hin).
    specialize (Hs _ Hin). cbn [fst snd] in *.
    apply andb_true_iff in Hs as [Ht Hk].
    apply andb_true_iff in Ht as [_ Ht]. apply negb_true_iff in Ht.
    split; [exact Ht|].
    destruct (isToken extensionTokens k) eqn:Hext.
    + split; intros y; [reflexivity|].
      apply (replaceAll_skip _ _ _ matchAt_mime "i"
               ["mage/jpeg"; "mage/png"; "mage/gif"; "mage/avif"]);
        reflexivity.
    + cbn [orb] in Hk. rewrite Hk. split; intros y.
      * now apply mime_token_stops.
      * apply (replaceAll_match _ _ _ matchAt_mime mimeTokens_nonempty).
        now apply mime_found.
  - exact Hl.
Qed.

End RenamePieces.

Section CutFacts.

Local Arguments chr_eq : simpl never.
Local Arguments ciPrefix : simpl never.
Local Arguments drop : simpl never.

Lemma ciPrefix_mono (tok t y : string) :
  ciPrefix tok t = true -> ciPrefix tok (t ++ y) = true.
Proof.
  revert t; induction tok as [|a tok IH]; intros t H; [reflexivity|].
  destruct t as [|c t]; [discriminate|].
  rewrite ciPrefix_cons in H. apply andb_true_iff in H as [Hc H].
  simpl append. now rewrite ciPrefix_cons, Hc, IH.
Qed.

Lemma startsAny_mono (toks : list string) (t y : string) :
  startsAny toks (t ++ y) = false -> startsAny toks t = false.
Proof.
  unfold startsAny. induction toks as [|tok toks IH]; [reflexivity|].
  cbn [existsb]. intros H. apply orb_false_iff in H as [H1 H2].
  rewrite (IH H2), orb_false_r.
  destruct (ciPrefix tok t) eqn:E; [|reflexivity].
  now rewrite (ciPrefix_mono _ _ y E) in H1.
Qed.

Lemma ciPrefix_take (tok s : string) :
  ciPrefix tok s = true -> ciEqual tok (take (String.length tok) s) = true.
Proof.
  revert s; induction tok as [|a tok IH]; intros s H.
  - now destruct s.
  - destruct s as [|c s]; [discriminate|].
    rewrite ciPrefix_cons in H. apply andb_true_iff in H as [Hc H].
    simpl. now rewrite Hc, IH.
Qed.

(** A word found at the start of a value is an occurrence, and the
    value is that occurrence followed by the rest. *)
Lemma firstToken_occurrence (toks : list string) (s rest : string) :
  firstToken toks s = Some rest ->
  exists k, isToken toks k = true /\ s = k ++ rest.
Proof.
  intros H. destruct (firstToken_Some _ _ _ H) as (tok & Hin & Hp & ->).
  exists (take (String.length tok) s). split.
  - unfold isToken. apply existsb_exists. exists tok. split; [exact Hin|].
    now apply ciPrefix_take.
  - symmetry. apply take_drop.
Qed.

Lemma plainText_cons (c : ascii) (t y : string) :
  firstToken extensionTokens (String c (t ++ y)) = None ->
  firstToken mimeTokens (String c (t ++ y)) = None ->
  plainText t = true -> plainText (String c t) = true.
Proof.
  unfold plainText. intros He Hm H.
  apply andb_true_iff in H as [H1 H2].
  apply negb_true_iff in H1, H2.
  rewrite (test_eq _ _ matchAt_extension), (test_eq _ _ matchAt_mime), H1, H2.
  rewrite !orb_false_r.
  rewrite (startsAny_mono extensionTokens (String c t) y),
          (startsAny_mono mimeTokens (String c t) y); [reflexivity| |].
  - rewrite firstToken_startsAny. simpl append. now rewrite Hm.
  - rewrite firstToken_startsAny. simpl append. now rewrite He.
Qed.

(** Every value can be cut into pieces. *)
Lemma cut_exists (v : string) :
  exists segments last,
    v = assemble segments last /\ cutValue segments last = true.
Proof.
  remember (String.length v) as n eqn:Hn. revert v Hn.
  induction n as [n IH] using lt_wf_ind. intros v Hn.
  assert (Hrest : forall toks rest,
             (forall tok, In tok toks -> tok <> "") ->
             firstToken toks v = Some rest -> String.length rest < n).
  { intros toks rest Hne H.
    destruct (firstToken_Some _ _ _ H) as (tok & Hin & Hp & ->).
    pose proof (ciPrefix_length _ _ Hp). rewrite length_drop.
    specialize (Hne _ Hin). destruct tok; [congruence|]. simpl in *. lia. }
  destruct (firstToken extensionTokens v) as [rest|] eqn:Ee.
  - destruct (firstToken_occurrence _ _ _ Ee) as (k & Hk & ->).
    destruct (IH _ (Hrest _ _ extensionTokens_nonempty Ee) rest eq_refl)
      as (segs & last & -> & Hcut).
    exists (("", k) :: segs), last. split; [reflexivity|].
    unfold cutValue in *. apply andb_true_iff in Hcut as [Hs Hl].
    cbn [forallb fst snd]. now rewrite Hk, Hs, Hl.
  - destruct (firstToken mimeTokens v) as [rest|] eqn:Em.
    + destruct (firstToken_occurrence _ _ _ Em) as (k & Hk & ->).
      destruct (IH _ (Hrest _ _ mimeTokens_nonempty Em) rest eq_refl)
        as (segs & last & -> & Hcut).
      exists (("", k) :: segs), last. split; [reflexivity|].
      unfold cutValue in *. apply andb_true_iff in Hcut as [Hs Hl].
      cbn [forallb fst snd]. now rewrite Hk, Hs, Hl, orb_true_r.
    + destruct v as [|c v].
      * now exists [], "".
      * destruct (IH (String.length v)) with (v := v)
          as (segs & last & -> & Hcut); [subst n; simpl; lia | reflexivity |].
        unfold cutValue in Hcut. apply andb_true_iff in Hcut as [Hs Hl].
        destruct segs as [|[t k] segs].
        -- exists [], (String c last). split; [reflexivity|].
           unfold cutValue. cbn [forallb andb].
           simpl assemble in Ee, Em. rewrite <- (app_nil_r last) in Ee, Em.
           now apply (plainText_cons c last "").
        -- cbn [forallb fst snd] in Hs.
           apply andb_true_iff in Hs as [Htk Hs].
           apply andb_true_iff in Htk as [Ht Hk].
           exists ((String c t, k) :: segs), last. split; [reflexivity|].
           unfold cutValue. cbn [forallb fst snd].
           rewrite Hk, Hs, Hl.
           simpl assemble in Ee, Em.
           now rewrite (plainText_cons c t _ Ee Em Ht).
Qed.

End CutFacts.

(** ** The claims about the selector transformer *)

(** C5, as amended.  For every selector list and every marker class
    name free of [$], the selector transformer returns a list of the
    same length, its i-th element is the transform of the i-th input
    selector (none is dropped or merged), and every output selector
    contains the marker-class token at least once: the exact count is
    not always one. *)
Theorem transformSelectors_length_marker
        (options : IPluginOptions) (sels : list string) (className : string) :
  noDollar className = true ->
  List.length (transformSelectors options sels className) = List.length sels
  /\ (forall i,
         nth_error (transformSelectors options sels className) i
         = option_map (transformSelector (markerClass options className))
                      (nth_error sels i))
  /\ (forall out,
         In out (transformSelectors options sels className) ->
         1 <= countOccurrences out (markerClass options className)).
Proof.
  intros Hd. unfold transformSelectors. repeat split.
  - apply length_map.
  - intros i. apply nth_error_map.
  - intros out Hin. apply in_map_iff in Hin as (sel & <- & _).
    apply occursIn_count, (occursIn_weaken "html").
    apply transformSelector_occurs. now apply noDollar_markerClass.
Qed.

Lemma transformSelectors_length_marker_witness :
  noDollar "webp" = true
  /\ List.length (transformSelectors defaults ["main"; ":root"; "html body"] "webp") = 3
  /\ (forall out,
         In out (transformSelectors defaults ["main"; ":root"; "html body"] "webp") ->
         1 <= countOccurrences out (markerClass defaults "webp")).
Proof.
  split; [reflexivity|].
  destruct (transformSelectors_length_marker
              defaults ["main"; ":root"; "html body"] "webp" eq_refl)
    as (Hl & _ & Hc).
  split; [exact Hl | exact Hc].
Defined.

(** C5, counterexample.  The selector [a.webp.webp] under the marker
    class [webp]: only the first token is stripped, so the output
    selector carries the marker-class token twice. *)
Lemma transformSelectors_marker_twice :
  transformSelectors defaults ["a.webp.webp"] "webp" = ["html.webp a.webp"]
  /\ countOccurrences "html.webp a.webp" (markerClass defaults "webp") = 2.
Proof. split; reflexivity. Qed.

(** C6, as amended.  With [c] the selector after the strip step and a
    marker class free of [$]: if [c] contains [html], the marker is
    inserted right after the leftmost [html] and the rest of [c] is kept
    as it is; else if [c] is not empty, the result is [html<marker>], a
    space and [c]; else the result is exactly [html<marker>].  How many
    [html<marker>] compounds the result has is left open. *)
Theorem transformSelector_cases
        (options : IPluginOptions) (className sel : string) :
  let cn := markerClass options className in
  let c := cleanSelector cn sel in
  (includes c "html" = true -> noDollar className = true ->
   exists a b,
     c = a ++ "html" ++ b
     /\ (forall a' b', c = a' ++ "html" ++ b' ->
                       String.length a <= String.length a')
     /\ transformSelector cn sel = a ++ "html" ++ cn ++ b)
  /\ (includes c "html" = false -> c <> "" ->
      transformSelector cn sel = "html" ++ cn ++ " " ++ c)
  /\ (c = "" -> transformSelector cn sel = "html" ++ cn).
Proof.
  intros cn c. split; [|split].
  - intros Hinc Hd. unfold includes in Hinc.
    destruct (indexOf c "html") as [i|] eqn:Hi; [|discriminate].
    destruct (indexOf_split _ _ _ Hi) as [Hs Hl].
    exists (take i c), (drop (i + 4) c). repeat split.
    + exact Hs.
    + intros a' b' E. rewrite Hl. eapply indexOf_least; eauto.
    + apply transformSelector_html; [|exact Hi].
      now apply noDollar_markerClass.
  - apply transformSelector_prefix.
  - apply transformSelector_root.
Qed.

Lemma transformSelector_cases_witness :
  transformSelector (markerClass defaults "webp") "html[data-ready='true'] main"
  = "html.webp[data-ready='true'] main"
  /\ transformSelector (markerClass defaults "webp") "main > section"
     = "html.webp main > section"
  /\ transformSelector (markerClass defaults "webp") ":root" = "html.webp".
Proof.
  split; [|split].
  - destruct (transformSelector_cases defaults "webp" "html[data-ready='true'] main")
      as (H & _ & _).
    destruct (H eq_refl eq_refl) as (a & b & Hc & Hmin & Ht).
    rewrite Ht.
    assert (E : cleanSelector (markerClass defaults "webp")
                              "html[data-ready='true'] main"
                = "html[data-ready='true'] main") by reflexivity.
    rewrite E in Hc, Hmin.
    assert (Ha : String.length a <= 0)
      by (apply (Hmin "" "[data-ready='true'] main"); reflexivity).
    destruct a as [|x a]; [|simpl in Ha; lia].
    simpl in Hc. injection Hc as <-. reflexivity.
  - destruct (transformSelector_cases defaults "webp" "main > section")
      as (_ & H & _).
    apply H; [reflexivity | discriminate].
  - destruct (transformSelector_cases defaults "webp" ":root") as (_ & _ & H).
    apply H. reflexivity.
Defined.

(** C6, counterexample.  The selector [html.webp html.webp]: after the
    strip step it still contains [html], the marker goes after the first
    one, and the result has two [html.webp] compounds, not one. *)
Lemma transformSelector_two_compounds :
  includes (cleanSelector ".webp" "html.webp html.webp") "html" = true
  /\ transformSelector (markerClass defaults "webp") "html.webp html.webp"
     = "html.webp html.webp"
  /\ countOccurrences
       (transformSelector (markerClass defaults "webp") "html.webp html.webp")
       ("html" ++ markerClass defaults "webp") = 2.
Proof. repeat split. Qed.

(** C7, as amended.  Before the insertion logic the selector transformer
    removes the leftmost occurrence of the marker-class token (none if
    there is none), and then the leftmost occurrence of [:root] from
    what is left; later occurrences stay. *)
Theorem cleanSelector_removes_first (className sel : string) :
  exists s1,
    removesFirst className sel s1
    /\ removesFirst ":root" s1 (cleanSelector className sel).
Proof.
  exists (replace sel className ""). split; apply replace_removesFirst.
Qed.

(** C7, counterexample.  The selector [a.webp.webp] keeps its second
    marker-class token, and [:root :root a] its second [:root]. *)
Lemma cleanSelector_keeps_later_occurrences :
  cleanSelector ".webp" "a.webp.webp" = "a.webp"
  /\ includes (cleanSelector ".webp" "a.webp.webp") ".webp" = true
  /\ includes (cleanSelector ".webp" ":root :root a") ":root" = true.
Proof. repeat split. Qed.

(** ** The claims about the hook, the finalizer and the default rename *)






(** C2.  For the stylesheet [section { background: url(./image.png);
    color: red; }] and the default options, the result is the rule
    [section { color: red; }], then [html.webp section { background:
    url(./image.webp); }], then [html.no-webp section { background:
    url(./image.png); }], in that document order (the two new rules are
    the second and the first object allocated by the run). *)
Theorem section_example :
  transform defaults
    [RuleNode (mkRule 0 "section" ["section"]
                      [Decl (mkDecl "background" "url(./image.png)");
                       Decl (mkDecl "color" "red")])]
  = [RuleNode (mkRule 0 "section" ["section"]
                      [Decl (mkDecl "color" "red")]);
     RuleNode (mkRule 2 "html.webp section" ["html.webp section"]
                      [Decl (mkDecl "background" "url(./image.webp)")]);
     RuleNode (mkRule 1 "html.no-webp section" ["html.no-webp section"]
                      [Decl (mkDecl "background" "url(./image.png)")])].
Proof. vm_compute. reflexivity. Qed.



(** C4.  For every declaration value, the default rename replaces every
    occurrence of the extensions [.jpg], [.jpeg], [.png], [.gif] and
    [.avif], whatever the case of their letters, with [.webp], and every
    occurrence of the MIME tokens [image/jpeg], [image/png], [image/gif]
    and [image/avif] with [image/webp]: the value can be cut into plain
    texts and occurrences; for any such cut the renamed value is the
    same texts with every occurrence replaced; and no occurrence of
    either pattern is left. *)
Theorem defaultRename_replaces_every_occurrence (declaration : Declaration) :
  (exists segments last,
      value declaration = assemble segments last
      /\ cutValue segments last = true)
  /\ (forall segments last,
         value declaration = assemble segments last ->
         cutValue segments last = true ->
         defaultRename declaration
         = assemble (map (fun seg => (fst seg, renamedToken (snd seg)))
                         segments) last)
  /\ test extensionPattern (defaultRename declaration) = false
  /\ test mimePattern (defaultRename declaration) = false.
Proof.
  split; [apply cut_exists | split; [|split]].
  - intros segments last E Hcut. unfold defaultRename. rewrite E.
    now rewrite extension_pass, mime_pass.
  - apply (defaultRename_no_match declaration).
  - apply mime_gone.
Qed.

Lemma defaultRename_replaces_every_occurrence_witness :
  defaultRename
    (mkDecl "background"
            "image-set(url(a.JPG) type(image/jpeg), url(b.png) 2x)")
  = "image-set(url(a.webp) type(image/webp), url(b.webp) 2x)".
Proof.
  destruct (defaultRename_replaces_every_occurrence
              (mkDecl "background"
                      "image-set(url(a.JPG) type(image/jpeg), url(b.png) 2x)"))
    as (_ & H & _).
  rewrite (H [("image-set(url(a", ".JPG"); (") type(", "image/jpeg");
              ("), url(b", ".png")] ") 2x)" eq_refl eq_refl).
  reflexivity.
Defined.

(** C10.  For every rule whose selector text contains a dot followed by
    the fallback class name, be it only as the start of a longer class
    name such as [.no-webp-banner], the visit hook returns at once: the
    rule is left unmodified and nothing is recorded for it. *)
Theorem visitRule_skips_longer_token
        (options : IPluginOptions) (st : Store) (rule : Rule)
        (before behind : string) :
  selector rule = before ++ "." ++ noWebpClass options ++ behind ->
  visitRule options st rule = (st, rule).
Proof.
  intros E. apply visitRule_skipped. unfold skipped. rewrite E.
  apply (includes_app before ("." ++ noWebpClass options) behind).
Qed.

Lemma visitRule_skips_longer_token_witness :
  visitRule defaults (mkStore [] [] 1)
            (mkRule 0 ".no-webp-banner" [".no-webp-banner"]
                    [Decl (mkDecl "background" "url(./image.png)")])
  = (mkStore [] [] 1,
     mkRule 0 ".no-webp-banner" [".no-webp-banner"]
            [Decl (mkDecl "background" "url(./image.png)")]).
Proof.
  apply (visitRule_skips_longer_token defaults _ _ "" "-banner").
  reflexivity.
Defined.

(** ** Further properties of the default classifier and rename *)

Section ClassifierFacts.

Local Arguments chr_eq : simpl never.
Local Arguments ciPrefix : simpl never.
Local Arguments drop : simpl never.

Lemma ciEqual_prefix (tok k rest : string) :
  ciEqual tok k = true -> ciPrefix tok (k ++ rest) = true.
Proof.
  revert k; induction tok as [|a tok IH]; intros [|c k]; simpl;
    try discriminate; auto.
  intros H. apply andb_true_iff in H as [Hc H].
  now rewrite ciPrefix_cons, Hc, IH.
Qed.

Lemma startsAny_occurrence (toks : list string) (s : string) :
  startsAny toks s = true
  <-> exists k rest, isToken toks k = true /\ s = k ++ rest.
Proof.
  split.
  - rewrite firstToken_startsAny.
    destruct (firstToken toks s) as [rest|] eqn:E; [|discriminate].
    intros _. destruct (firstToken_occurrence _ _ _ E) as (k & Hk & ->).
    now exists k, rest.
  - intros (k & rest & Hk & ->).
    apply isToken_ciEqual in Hk as (tok & Hin & Hk).
    unfold startsAny. apply existsb_exists. exists tok. split; [exact Hin|].
    now apply ciEqual_prefix.
Qed.

Lemma test_somewhere (re : RegExp) (toks : list string) (s : string) :
  (forall s, matchAt re s = firstToken toks s) ->
  test re s = true <-> exists a b, s = a ++ b /\ startsAny toks b = true.
Proof.
  intros Hre. induction s as [|c s IH]; rewrite (test_eq _ _ Hre).
  - rewrite orb_false_r. split.
    + intros H. now exists "", "".
    + intros (a & b & E & H). destruct a; [|discriminate].
      simpl in E. now subst b.
  - split.
    + intros H. apply orb_true_iff in H as [H|H].
      * now exists "", (String c s).
      * apply IH in H as (a & b & -> & H). now exists (String c a), b.
    + intros (a & b & E & H). apply orb_true_iff.
      destruct a as [|x a].
      * left. simpl in E. now subst b.
      * right. apply IH. injection E as _ E. now exists a, b.
Qed.

(** X1.  The default classifier accepts a declaration exactly when its
    value contains, somewhere, one of [.jpeg], [.jpg], [.png], [.gif],
    [.avif] in any mix of upper and lower case; the property name plays
    no part. *)
Theorem defaultPredicate_iff_occurrence (declaration : Declaration) :
  defaultPredicate declaration = true
  <-> exists a k b,
        value declaration = a ++ k ++ b
        /\ isToken extensionTokens k = true.
Proof.
  unfold defaultPredicate.
  rewrite (test_somewhere _ _ _ matchAt_extension). split.
  - intros (a & b & E & H).
    apply startsAny_occurrence in H as (k & rest & Hk & ->).
    now exists a, k, rest.
  - intros (a & k & b & E & Hk). exists a, (k ++ b). split; [exact E|].
    apply startsAny_occurrence. now exists k, b.
Qed.

Lemma defaultRename_plain (declaration : Declaration) :
  plainText (value declaration) = true ->
  defaultRename declaration = value declaration.
Proof.
  intros H. unfold defaultRename.
  assert (Hcut : cutValue [] (value declaration) = true) by exact H.
  pose proof (extension_pass [] _ Hcut) as H1.
  pose proof (mime_pass [] _ Hcut) as H2.
  simpl in H1, H2. now rewrite H1, H2.
Qed.

Lemma defaultRename_is_plain (declaration : Declaration) :
  plainText (defaultRename declaration) = true.
Proof.
  unfold plainText.
  pose proof (defaultRename_no_match declaration) as H.
  unfold defaultPredicate in H. simpl in H. rewrite H.
  unfold defaultRename. now rewrite mime_gone.
Qed.

(** X2.  The default rename leaves a value as it is exactly when neither
    pattern occurs in it, and renaming a renamed value changes nothing
    more. *)
Theorem defaultRename_fixed_iff_plain (declaration : Declaration) :
  (defaultRename declaration = value declaration
   <-> plainText (value declaration) = true)
  /\ defaultRename (mkDecl (prop declaration) (defaultRename declaration))
     = defaultRename declaration.
Proof.
  split; [split|].
  - intros E. rewrite <- E. apply defaultRename_is_plain.
  - apply defaultRename_plain.
  - apply (defaultRename_plain
             (mkDecl (prop declaration) (defaultRename declaration))).
    apply defaultRename_is_plain.
Qed.

End ClassifierFacts.

(** ** Further properties of the selector transformer and the hook *)

Section MoreHookFacts.

Variable options : IPluginOptions.

Lemma occursIn_includes (p s : string) : occursIn p s -> includes s p = true.
Proof. apply includes_occurs. Qed.

(** X3.  Whatever the class name and whatever the selector, every
    selector the selector transformer returns contains [html]. *)
Theorem transformSelectors_anchor_on_html
        (sels : list string) (className out : string) :
  In out (transformSelectors options sels className) ->
  includes out "html" = true.
Proof.
  unfold transformSelectors. intros H.
  apply in_map_iff in H as (sel & <- & _).
  set (cn := markerClass options className).
  unfold transformSelector. unfold includes at 2.
  destruct (indexOf (cleanSelector cn sel) "html") as [i|] eqn:Hi.
  - unfold replace. rewrite Hi. apply occursIn_includes.
    exists (take i (cleanSelector cn sel)).
    eexists. cbn [getSubstitution Ascii.eqb Bool.eqb]. simpl.
    reflexivity.
  - destruct (negb _); apply occursIn_includes; exists ""; eexists;
      reflexivity.
Qed.

Lemma filter_both_lengths (A : Type) (f : A -> bool) (l : list A) :
  List.length l
  = List.length (filter (fun x => negb (f x)) l) + List.length (filter f l).
Proof.
  induction l as [|x l IH]; simpl; [reflexivity|].
  destruct (f x); simpl; lia.
Qed.


End MoreHookFacts.

Lemma transformSelectors_anchor_on_html_witness :
  includes "html.a$b body" "html" = true.
Proof.
  apply (transformSelectors_anchor_on_html defaults ["html body"] "a$$b").
  now left.
Defined.

(** ** Further properties of a run *)

Section MoreRunFacts.

Variable options : IPluginOptions.







End MoreRunFacts.





(** ** The runtime probe *)

Section ProbeFacts.

Import Probe.

Lemma contains_app (l1 l2 : DOMTokenList) (t : string) :
  contains (l1 ++ l2)%list t = contains l1 t || contains l2 t.
Proof. apply existsb_app. Qed.

Lemma contains_filter_out (l : DOMTokenList) (t n x : string) :
  contains (filter (fun y => negb (String.eqb y t || String.eqb y n)) l) x
  = negb (String.eqb x t || String.eqb x n) && contains l x.
Proof.
  induction l as [|y l IH]; simpl; [now rewrite andb_false_r|].
  destruct (negb (String.eqb y t || String.eqb y n)) eqn:E; simpl;
    rewrite IH; destruct (String.eqb_spec x y) as [->|Hx]; simpl;
    rewrite ?E; reflexivity.
Qed.

Lemma filter_filter_out (l : DOMTokenList) (t n : string) :
  filter (fun y => negb (String.eqb y t || String.eqb y n))
         (filter (fun y => negb (String.eqb y t || String.eqb y n)) l)
  = filter (fun y => negb (String.eqb y t || String.eqb y n)) l.
Proof.
  induction l as [|y l IH]; simpl; [reflexivity|].
  destruct (negb (String.eqb y t || String.eqb y n)) eqn:E; simpl;
    [rewrite E, IH; reflexivity | exact IH].
Qed.

Lemma filter_out_none (l : DOMTokenList) (t n : string) :
  filter (String.eqb n)
         (filter (fun y => negb (String.eqb y t || String.eqb y n)) l)
  = [].
Proof.
  induction l as [|y l IH]; simpl; [reflexivity|].
  destruct (String.eqb y t || String.eqb y n) eqn:E; simpl; [exact IH|].
  apply orb_false_iff in E as [_ En].
  now rewrite String.eqb_sym, En.
Qed.

(** What the replacement within an ordered set does to a list that holds
    one of the two tokens. *)
Lemma replaceWithin_spec (l : DOMTokenList) (t n : string) :
  t <> n ->
  contains l t || contains l n = true ->
  contains (replaceWithin l t n) t = false
  /\ List.length (filter (String.eqb n) (replaceWithin l t n)) = 1
  /\ filter (fun y => negb (String.eqb y t || String.eqb y n))
            (replaceWithin l t n)
     = filter (fun y => negb (String.eqb y t || String.eqb y n)) l.
Proof.
  intros Hne. apply String.eqb_neq in Hne.
  induction l as [|y l IH]; [discriminate|].
  intros H. cbn [replaceWithin filter].
  destruct (String.eqb y t || String.eqb y n) eqn:E; cbn [negb].
  - cbn [contains existsb filter]. fold (contains
      (filter (fun x => negb (String.eqb x t || String.eqb x n)) l) t).
    rewrite contains_filter_out, !String.eqb_refl, Hne, orb_true_r.
    cbn [negb andb orb]. rewrite filter_out_none, filter_filter_out.
    now repeat split.
  - apply orb_false_iff in E as [Et En].
    cbn [contains existsb] in H.
    rewrite (String.eqb_sym t y), Et, (String.eqb_sym n y), En in H.
    cbn [orb] in H. destruct (IH H) as (H1 & H2 & H3).
    cbn [contains existsb filter]. fold (contains (replaceWithin l t n) t).
    rewrite (String.eqb_sym t y), (String.eqb_sym n y), !Et, !En.
    cbn [orb negb]. rewrite H3. now repeat split.
Qed.

(** X12.  The first statement of the script: a class list without
    [no-js] is left as it is, and [js] is not added to it; in a class
    list with [no-js] that token goes, [js] is there exactly once, and
    every other token stays, in its order. *)
Theorem start_swaps_no_js (classList : DOMTokenList) :
  (contains classList "no-js" = false -> start classList = classList)
  /\ (contains classList "no-js" = true ->
      contains (start classList) "no-js" = false
      /\ List.length (filter (String.eqb "js") (start classList)) = 1
      /\ filter (fun y => negb (String.eqb y "no-js" || String.eqb y "js"))
                (start classList)
         = filter (fun y => negb (String.eqb y "no-js" || String.eqb y "js"))
                  classList).
Proof.
  unfold start, replace. split; intros H; rewrite H; [reflexivity|].
  apply replaceWithin_spec; [discriminate | now rewrite H].
Qed.

Lemma start_swaps_no_js_witness :
  start ["page"; "dark"] = ["page"; "dark"]
  /\ contains (start ["page"; "no-js"; "dark"]) "no-js" = false.
Proof.
  split.
  - destruct (start_swaps_no_js ["page"; "dark"]) as [H _].
    apply H. reflexivity.
  - destruct (start_swaps_no_js ["page"; "no-js"; "dark"]) as [_ H].
    apply H. reflexivity.
Defined.

Lemma contains_add (l : DOMTokenList) (t x : string) :
  contains (add l t) x = contains l x || String.eqb x t.
Proof.
  unfold add. destruct (contains l t) eqn:E.
  - destruct (String.eqb_spec x t) as [->|Hx]; [|now rewrite orb_false_r].
    now rewrite E.
  - rewrite contains_app. simpl. now rewrite orb_false_r.
Qed.

(** X13.  The callback of the probe: with a height other than zero the
    class list holds [webp] afterwards and [no-webp] only if it did
    before; with height zero it holds [no-webp] and [webp] only if it
    did before.  The tokens that were there stay, in their order, at
    most one is appended, and a second call of the callback changes
    nothing. *)
Theorem onProbe_adds_marker (height : nat) (classList : DOMTokenList) :
  (height <> 0 ->
   contains (onProbe height classList) "webp" = true
   /\ contains (onProbe height classList) "no-webp"
      = contains classList "no-webp")
  /\ (height = 0 ->
      contains (onProbe height classList) "no-webp" = true
      /\ contains (onProbe height classList) "webp"
         = contains classList "webp")
  /\ (exists added,
         onProbe height classList = (classList ++ added)%list
         /\ List.length added <= 1)
  /\ onProbe height (onProbe height classList) = onProbe height classList.
Proof.
  unfold onProbe. repeat split.
  - rewrite contains_add. destruct height; [congruence|].
    simpl. apply orb_true_r.
  - rewrite contains_add. destruct height; [congruence|].
    simpl. apply orb_false_r.
  - subst height. rewrite contains_add. simpl. apply orb_true_r.
  - subst height. rewrite contains_add. simpl. apply orb_false_r.
  - unfold add. destruct (contains classList _).
    + exists []. rewrite List.app_nil_r. split; [reflexivity | simpl; lia].
    + eexists. split; [reflexivity | simpl; lia].
  - set (m := if negb (Nat.eqb height 0) then "webp" else "no-webp").
    unfold add at 1. rewrite contains_add, String.eqb_refl, orb_true_r.
    reflexivity.
Qed.

Lemma onProbe_adds_marker_witness :
  contains (onProbe 1 ["js"]) "webp" = true
  /\ contains (onProbe 0 ["js"]) "no-webp" = true.
Proof.
  split.
  - destruct (onProbe_adds_marker 1 ["js"]) as [H _].
    apply H. discriminate.
  - destruct (onProbe_adds_marker 0 ["js"]) as (_ & H & _).
    apply H. reflexivity.
Defined.

(** X14.  The script as a whole, on a class list that holds neither
    marker class: once the callback has run, [no-js] is not in the list
    and exactly one marker class is, [webp] when the height is not zero
    and [no-webp] when it is. *)
Theorem script_outcome (height : nat) (classList : DOMTokenList) :
  contains classList "webp" = false ->
  contains classList "no-webp" = false ->
  contains (onProbe height (start classList)) "no-js" = false
  /\ contains (onProbe height (start classList)) "webp"
     = negb (Nat.eqb height 0)
  /\ contains (onProbe height (start classList)) "no-webp"
     = Nat.eqb height 0.
Proof.
  intros Hw Hn.
  assert (Hs : forall x, x <> "no-js" -> x <> "js" ->
                         contains (start classList) x = contains classList x).
  { intros x H1 H2. unfold start, replace.
    destruct (contains classList "no-js") eqn:E; [|reflexivity].
    destruct (replaceWithin_spec classList "no-js" "js") as (_ & _ & H3);
      [discriminate | now rewrite E |].
    pose proof (contains_filter_out (replaceWithin classList "no-js" "js")
                  "no-js" "js" x) as Ha.
    pose proof (contains_filter_out classList "no-js" "js" x) as Hb.
    rewrite H3 in Ha. rewrite Ha in Hb.
    apply String.eqb_neq in H1, H2. rewrite H1, H2 in Hb. exact Hb. }
  assert (Hj : contains (start classList) "no-js" = false).
  { unfold start, replace.
    destruct (contains classList "no-js") eqn:E; [|exact E].
    apply replaceWithin_spec; [discriminate | now rewrite E]. }
  unfold onProbe. rewrite !contains_add, Hj.
  rewrite !Hs, Hw, Hn by discriminate.
  destruct height; repeat split.
Qed.

End ProbeFacts.

Lemma script_outcome_witness :
  Probe.contains (Probe.onProbe 2 (Probe.start ["no-js"; "page"])) "no-js" = false
  /\ Probe.contains (Probe.onProbe 2 (Probe.start ["no-js"; "page"])) "webp" = true
  /\ Probe.contains (Probe.onProbe 2 (Probe.start ["no-js"; "page"])) "no-webp" = false.
Proof. apply (script_outcome 2 ["no-js"; "page"]); reflexivity. Defined.

(** ** Plain selectors and a second visit *)

(** X15.  A selector that is not empty and contains neither the marker
    class, nor [:root], nor [html] comes back whole, behind the marker
    on [html] and a space. *)
Theorem transformSelector_plain (className selector : string) :
  includes selector className = false ->
  includes selector ":root" = false ->
  includes selector "html" = false ->
  selector <> "" ->
  transformSelector className selector
  = "html" ++ className ++ " " ++ selector.
Proof.
  intros Hc Hr Hh Hne.
  assert (E : cleanSelector className selector = selector).
  { unfold cleanSelector, includes in *.
    destruct (indexOf selector className) eqn:E1; [discriminate|].
    rewrite (replace_None _ _ _ E1).
    destruct (indexOf selector ":root") eqn:E2; [discriminate|].
    now apply replace_None. }
  rewrite transformSelector_prefix; rewrite E; auto.
Qed.

Lemma transformSelector_plain_witness :
  transformSelector ".webp" ".test1 > .test2" = "html.webp .test1 > .test2".
Proof.
  apply (transformSelector_plain ".webp" ".test1 > .test2");
    [reflexivity | reflexivity | reflexivity | discriminate].
Defined.

(** X16.  A second visit of a rule the hook has already seen, as the
    engine makes after the hook has changed the rule, does nothing: the
    store and the rule stay as they are. *)
Theorem visitRule_second_visit
        (options : IPluginOptions) (st st' : Store) (rule : Rule) :
  visitRule options st' (snd (visitRule options st rule))
  = (st', snd (visitRule options st rule)).
Proof.
  rewrite visitRule_rule. unfold strippedRule.
  destruct (skipped options rule) eqn:Hs.
  - now apply visitRule_skipped.
  - apply visitRule_nomatch. apply matchedDecls_kept.
Qed.

(** ** Facts about the engine's reading of a selector list *)

Section ListFacts.

Import Nested.

Local Abbreviation start := (mkScan 0 None false).

Lemma scanLetter_space (c : ascii) :
  isSpace c = true -> scanLetter [","%char] start c = (start, false).
Proof.
  destruct c as [[] [] [] [] [] [] [] []]; intros H; cbv in H;
    try discriminate H; reflexivity.
Qed.

Lemma runs_allSpace (ws : string) :
  allSpace ws = true -> runs start ws = Some start.
Proof.
  induction ws as [|c ws IH]; simpl; intros H; [reflexivity|].
  apply andb_true_iff in H as [Hc Hws].
  rewrite (scanLetter_space c Hc). now apply IH.
Qed.

Lemma runs_app (sc : Scan) (a b : string) :
  runs sc (a ++ b)
  = match runs sc a with Some sc' => runs sc' b | None => None end.
Proof.
  revert sc. induction a as [|c a IH]; intros sc; simpl; [reflexivity|].
  destruct (scanLetter [","%char] sc c) as [sc' [|]]; [reflexivity|apply IH].
Qed.

Lemma isolated_runs (s : string) :
  isolated s = true <-> runs start s = Some start.
Proof.
  unfold isolated. split.
  - destruct (runs start s) as [[[|n] [q|] [|]]|]; try discriminate. reflexivity.
  - intros ->. reflexivity.
Qed.

Lemma splitFrom_runs (last : bool) (e rest : string) :
  forall (sc sc' : Scan) (array : list string) (current : string),
    runs sc e = Some sc' ->
    splitFrom [","%char] last sc array current (e ++ rest)
    = splitFrom [","%char] last sc' array (current ++ e) rest.
Proof.
  induction e as [|c e IH]; intros sc sc' array current H; simpl in *.
  - injection H as <-. now rewrite app_nil_r.
  - destruct (scanLetter [","%char] sc c) as [sc1 [|]]; [discriminate|].
    rewrite (IH _ _ _ _ H), app_assoc. reflexivity.
Qed.

Lemma splitFrom_nonempty (separators : list ascii) (s : string) :
  forall (sc : Scan) (array : list string) (current : string),
    splitFrom separators true sc array current s <> [].
Proof.
  induction s as [|c s IH]; intros sc array current; simpl.
  - destruct array; discriminate.
  - destruct (scanLetter separators sc c) as [sc' [|]]; apply IH.
Qed.

Lemma comma_nonempty (s : string) : comma s <> [].
Proof. apply splitFrom_nonempty. Qed.

(** *** Trimming *)

Lemma trimStart_allSpace_app (ws e : string) :
  allSpace ws = true -> trimStart (ws ++ e) = trimStart e.
Proof.
  induction ws as [|c ws IH]; simpl; intros H; [reflexivity|].
  apply andb_true_iff in H as [-> Hws]. now apply IH.
Qed.

Lemma trim_allSpace_app (ws e : string) :
  allSpace ws = true -> trim (ws ++ e) = trim e.
Proof. intros H. unfold trim. now rewrite trimStart_allSpace_app. Qed.

Lemma trimStart_decompose (s : string) :
  exists a, allSpace a = true /\ s = a ++ trimStart s.
Proof.
  induction s as [|c s (a & Ha & E)]; simpl.
  - now exists "".
  - destruct (isSpace c) eqn:Hc.
    + exists (String c a). simpl. rewrite Hc, Ha. split; [reflexivity|].
      now rewrite <- E.
    + now exists "".
Qed.

Lemma trimEnd_decompose (s : string) :
  exists b, allSpace b = true /\ s = trimEnd s ++ b.
Proof.
  induction s as [|c s (b & Hb & E)]; simpl.
  - now exists "".
  - destruct (trimEnd s) as [|d t] eqn:Et.
    + destruct (isSpace c) eqn:Hc.
      * exists (String c b). simpl in *. rewrite Hc, Hb. split; [reflexivity|].
        now rewrite <- E.
      * exists b. split; [assumption|]. simpl in *. now rewrite <- E.
    + exists b. split; [assumption|]. simpl in *. now rewrite <- E.
Qed.

Lemma trim_decompose (s : string) :
  exists a b, allSpace a = true /\ allSpace b = true /\ s = a ++ trim s ++ b.
Proof.
  destruct (trimStart_decompose s) as (a & Ha & Ea).
  destruct (trimEnd_decompose (trimStart s)) as (b & Hb & Eb).
  exists a, b. split; [assumption|]. split; [assumption|].
  unfold trim. now rewrite <- Eb.
Qed.

Lemma trimEnd_twice (s : string) : trimEnd (trimEnd s) = trimEnd s.
Proof.
  induction s as [|c s IH]; simpl; [reflexivity|].
  destruct (trimEnd s) as [|d t] eqn:Et.
  - destruct (isSpace c) eqn:Hc; simpl; [reflexivity|]. now rewrite Hc.
  - simpl in *. now rewrite IH.
Qed.

Lemma trimStart_fixed (s : string) :
  trimStart (trimStart s) = trimStart s.
Proof.
  induction s as [|c s IH]; simpl; [reflexivity|].
  destruct (isSpace c) eqn:Hc; [assumption|]. simpl. now rewrite Hc.
Qed.

Lemma trimStart_trimEnd (s : string) :
  trimStart s = s -> trimStart (trimEnd s) = trimEnd s.
Proof.
  destruct s as [|c s]; simpl; [reflexivity|].
  destruct (isSpace c) eqn:Hc.
  - intros H. exfalso.
    destruct (trimStart_decompose s) as (a & _ & E).
    apply (f_equal String.length) in H. apply (f_equal String.length) in E.
    rewrite length_app in E. simpl in H. lia.
  - intros _. destruct (trimEnd s); simpl; now rewrite Hc.
Qed.

Lemma trim_twice (s : string) : trim (trim s) = trim s.
Proof.
  unfold trim.
  rewrite (trimStart_trimEnd (trimStart s) (trimStart_fixed s)).
  apply trimEnd_twice.
Qed.

Lemma isolated_of_trim (s : string) :
  isolated (trim s) = true -> isolated s = true.
Proof.
  intros H. apply isolated_runs in H. apply isolated_runs.
  destruct (trim_decompose s) as (a & b & Ha & Hb & E).
  rewrite E, runs_app, (runs_allSpace a Ha), runs_app, H.
  now apply runs_allSpace.
Qed.

Lemma trim_nonempty (s : string) : trim s <> "" -> s <> "".
Proof. intros H ->. now apply H. Qed.

(** *** Reading back a list that was joined *)

Lemma allSpace_spaces (s : string) : allSpace (spaces s) = true.
Proof.
  induction s as [|c s IH]; simpl; [reflexivity|].
  destruct (isSpace c) eqn:Hc; simpl; [now rewrite Hc|reflexivity].
Qed.

Lemma separator_form (s : string) :
  exists ws, separator s = String "," ws /\ allSpace ws = true.
Proof.
  induction s as [|c s IH]; simpl.
  - now exists " ".
  - destruct (Ascii.eqb c ",") eqn:Hc; [|assumption].
    apply Ascii.eqb_eq in Hc. subst c. exists (spaces s).
    split; [reflexivity|apply allSpace_spaces].
Qed.

Lemma splitFrom_join (ws : string) (values : list string) :
  allSpace ws = true ->
  forall (value : string) (array : list string) (ws0 : string),
    allSpace ws0 = true ->
    (forall x, In x (value :: values) -> isolated x = true /\ x <> "") ->
    splitFrom [","%char] true start array ws0
              (join (String "," ws) (value :: values))
    = (array ++ map trim (value :: values))%list.
Proof.
  intros Hws. induction values as [|value2 values IH];
    intros value array ws0 Hws0 H.
  - destruct (H value (or_introl eq_refl)) as [Hv _].
    apply isolated_runs in Hv.
    change (join (String "," ws) [value]) with value.
    rewrite <- (app_nil_r value) at 1.
    rewrite (splitFrom_runs true value "" _ _ array ws0 Hv).
    simpl. now rewrite trim_allSpace_app.
  - destruct (H value (or_introl eq_refl)) as [Hv Hne].
    apply isolated_runs in Hv.
    change (join (String "," ws) (value :: value2 :: values))
      with (value ++ String "," ws ++ join (String "," ws) (value2 :: values)).
    rewrite (splitFrom_runs true value _ _ _ array ws0 Hv).
    change (String "," ws ++ join (String "," ws) (value2 :: values))
      with (String "," (ws ++ join (String "," ws) (value2 :: values))).
    cbn [splitFrom]. change (scanLetter [","%char] start ",") with (start, true).
    cbv iota beta.
    assert (Hcur : String.eqb (ws0 ++ value) "" = false).
    { apply String.eqb_neq. intros E. apply Hne.
      destruct ws0; [exact E|discriminate E]. }
    rewrite Hcur. cbn [negb].
    rewrite (splitFrom_runs true ws _ _ _ _ "" (runs_allSpace ws Hws)).
    change ("" ++ ws) with ws.
    rewrite (IH value2 _ ws Hws).
    + rewrite trim_allSpace_app by assumption.
      rewrite <- List.app_assoc. reflexivity.
    + intros x Hx. apply H. now right.
Qed.

Lemma comma_join (sep : string) (values : list string) :
  (exists ws, sep = String "," ws /\ allSpace ws = true) ->
  values <> [] ->
  (forall x, In x values -> isolated x = true /\ x <> "") ->
  comma (join sep values) = map trim values.
Proof.
  intros (ws & -> & Hws) Hne H.
  destruct values as [|value values]; [now elim Hne|].
  unfold comma, split.
  now rewrite (splitFrom_join ws values Hws value [] "" eq_refl H).
Qed.

End ListFacts.

(** ** Facts about the hook on the full tree *)

Lemma Nested_forest_induction
      (P : Nested.Node -> Prop) (Q : list Nested.Node -> Prop) :
  (forall d, P (Nested.Decl d)) ->
  (forall text, P (Nested.Comment text)) ->
  (forall r, Q (Nested.nodes r) -> P (Nested.RuleNode r)) ->
  (forall name params children,
      Q children -> P (Nested.AtRule name params children)) ->
  Q [] ->
  (forall n ns, P n -> Q ns -> Q (n :: ns)) ->
  forall ns, Q ns.
Proof.
  intros HD HC HR HA HN HS.
  assert (HP : forall n, P n).
  { fix IH 1. intros [d|text|[r s ns]|name params children].
    - apply HD.
    - apply HC.
    - apply HR. simpl. revert ns. fix IHl 1. intros [|n ns].
      + apply HN.
      + apply HS; [apply IH | apply IHl].
    - apply HA. revert children. fix IHl 1. intros [|n ns].
      + apply HN.
      + apply HS; [apply IH | apply IHl]. }
  induction ns; auto.
Qed.

Section NestedHookFacts.

Import Nested.

Variable options : IPluginOptions.

Lemma walkDecls_deep (ns : list Node) :
  forall noWebpDeclarations webpDeclarations,
    walkDecls options ns noWebpDeclarations webpDeclarations
    = (withoutMatching options ns,
       ((noWebpDeclarations
           ++ map (fun d => mkDecl (prop d) (value d))
                  (filter (predicate options) (declarations ns)))%list,
        (webpDeclarations
           ++ map (fun d => mkDecl (prop d) (rename options d))
                  (filter (predicate options) (declarations ns)))%list)).
Proof.
  pattern ns.
  apply Nested_forest_induction with
    (P := fun n =>
            forall nw w,
              walkDeclsNode options n nw w
              = (withoutMatchingNode options n,
                 ((nw ++ map (fun d => mkDecl (prop d) (value d))
                             (filter (predicate options) (declarationsOf n)))%list,
                  (w ++ map (fun d => mkDecl (prop d) (rename options d))
                            (filter (predicate options) (declarationsOf n)))%list)));
    clear ns.
  - intros d nw w. simpl. destruct (predicate options d); simpl.
    + reflexivity.
    + now rewrite !List.app_nil_r.
  - intros text nw w. simpl. now rewrite !List.app_nil_r.
  - intros [r s ns] IH nw w.
    change (walkDeclsNode options (RuleNode (mkRule r s ns)) nw w)
      with (let '(kept, lists) := walkDecls options ns nw w in
            ([RuleNode (setNodes (mkRule r s ns) kept)], lists)).
    simpl in IH. rewrite IH. reflexivity.
  - intros name params children IH nw w.
    change (walkDeclsNode options (AtRule name params children) nw w)
      with (let '(kept, lists) := walkDecls options children nw w in
            ([AtRule name params kept], lists)).
    rewrite IH. reflexivity.
  - intros nw w. simpl. now rewrite !List.app_nil_r.
  - intros n ns Hn Hns nw w. simpl. rewrite Hn, Hns.
    unfold declarations, withoutMatching. simpl.
    now rewrite filter_app, !map_app, !List.app_assoc.
Qed.

Lemma declarations_withoutMatching (ns : list Node) :
  declarations (withoutMatching options ns)
  = filter (fun d => negb (predicate options d)) (declarations ns).
Proof.
  unfold declarations, withoutMatching. pattern ns.
  apply Nested_forest_induction with
    (P := fun n =>
            flat_map declarationsOf (withoutMatchingNode options n)
            = filter (fun d => negb (predicate options d)) (declarationsOf n));
    clear ns.
  - intros d. simpl. destruct (predicate options d); reflexivity.
  - reflexivity.
  - intros [r s ns] IH. simpl in *. now rewrite List.app_nil_r.
  - intros name params children IH. simpl. now rewrite List.app_nil_r.
  - reflexivity.
  - intros n ns Hn Hns. simpl. now rewrite flat_map_app, filter_app, Hn, Hns.
Qed.

Lemma withoutMatching_none (ns : list Node) :
  (forall d, In d (declarations ns) -> predicate options d = false) ->
  withoutMatching options ns = ns.
Proof.
  unfold declarations, withoutMatching. pattern ns.
  apply Nested_forest_induction with
    (P := fun n =>
            (forall d, In d (declarationsOf n) -> predicate options d = false) ->
            withoutMatchingNode options n = [n]);
    clear ns.
  - intros d H. simpl. rewrite (H d); [reflexivity|now left].
  - reflexivity.
  - intros [r s ns] IH H. simpl in *. now rewrite IH.
  - intros name params children IH H. simpl in *. now rewrite IH.
  - reflexivity.
  - intros n ns Hn Hns H. simpl in *.
    rewrite Hn, Hns; [reflexivity| |];
      intros d Hd; apply H, in_app_iff; auto.
Qed.

Lemma filter_none (A : Type) (f : A -> bool) (l : list A) :
  (forall x, In x l -> f x = false) -> filter f l = [].
Proof.
  induction l as [|x l IH]; simpl; intros H; [reflexivity|].
  rewrite (H x) by now left. apply IH. intros y Hy. apply H. now right.
Qed.





Lemma setNodes_nodes (rule : Rule) : setNodes rule (nodes rule) = rule.
Proof. now destruct rule. Qed.

Lemma nested_visitRule_skipped (st : Store) (rule : Rule) :
  skipped options rule = true -> visitRule options st rule = (st, rule).
Proof. unfold skipped, visitRule. now intros ->. Qed.

Lemma nested_visitRule_unskipped (st : Store) (rule : Rule) :
  skipped options rule = false ->
  visitRule options st rule
  = (match matched options rule with
     | [] => st
     | _ :: _ =>
         mkStore (Map_set (noWebpRules st) (ref rule)
                          (noWebpVariant options rule (fresh st)))
                 (Map_set (webpRules st) (ref rule)
                          (webpVariant options rule (S (fresh st))))
                 (S (S (fresh st)))
     end,
     setNodes rule (withoutMatching options (nodes rule))).
Proof.
  unfold skipped, visitRule. intros ->. rewrite walkDecls_deep.
  cbn [List.app]. unfold noWebpVariant, webpVariant.
  fold (matched options rule).
  destruct (matched options rule) as [|d ds]; reflexivity.
Qed.

Lemma nested_Map_get_set (m : RuleMap) (k : nat) (v : Rule) :
  Map_get (Map_set m k v) k = Some v.
Proof.
  induction m as [|[k' v'] m IH]; simpl.
  - now rewrite Nat.eqb_refl.
  - destruct (Nat.eqb k' k) eqn:E; simpl; rewrite E; auto.
Qed.

Lemma nested_Map_set_keys (m1 m2 : RuleMap) (k : nat) (v1 v2 : Rule) :
  map fst m1 = map fst m2 ->
  map fst (Map_set m1 k v1) = map fst (Map_set m2 k v2).
Proof.
  revert m2; induction m1 as [|[k1 w1] m1 IH]; intros [|[k2 w2] m2];
    simpl; try discriminate; auto.
  intros [= <- E]. destruct (Nat.eqb k1 k); simpl; f_equal; auto.
Qed.

Lemma nested_Map_set_key_in (m : RuleMap) (k j : nat) (v : Rule) :
  In j (map fst (Map_set m k v)) -> j = k \/ In j (map fst m).
Proof.
  induction m as [|[k' v'] m IH]; simpl.
  - intros [H|[]]. now left.
  - destruct (Nat.eqb k' k); simpl; intros [H|H]; auto.
    destruct (IH H); auto.
Qed.

Lemma calls_in_step (rules : list Rule) :
  forall st,
    map fst (noWebpRules st) = map fst (webpRules st) ->
    map fst (noWebpRules (calls options st rules))
    = map fst (webpRules (calls options st rules)).
Proof.
  induction rules as [|r rules IH]; intros st H; [exact H|].
  change (calls options st (r :: rules))
    with (calls options (fst (visitRule options st r)) rules).
  apply IH. destruct (skipped options r) eqn:Hs.
  - now rewrite nested_visitRule_skipped.
  - rewrite nested_visitRule_unskipped by assumption.
    destruct (matched options r); [exact H|]. simpl.
    now apply nested_Map_set_keys.
Qed.

Lemma calls_keys (rules : list Rule) :
  forall st k,
    In k (map fst (noWebpRules (calls options st rules))) ->
    In k (map fst (noWebpRules st))
    \/ exists rule, In rule rules /\ ref rule = k
                    /\ skipped options rule = false
                    /\ matched options rule <> [].
Proof.
  induction rules as [|r rules IH]; intros st k H; [now left|].
  change (calls options st (r :: rules))
    with (calls options (fst (visitRule options st r)) rules) in H.
  apply IH in H as [H|(rule & Hin & Hk & Hs & Hm)].
  - destruct (skipped options r) eqn:Hs.
    + rewrite nested_visitRule_skipped in H by assumption. now left.
    + rewrite nested_visitRule_unskipped in H by assumption.
      destruct (matched options r) eqn:Hm; [now left|].
      simpl in H. apply nested_Map_set_key_in in H as [->|H]; [|now left].
      right. exists r. repeat split; auto; [now left|].
      rewrite Hm. discriminate.
  - right. exists rule. repeat split; auto. now right.
Qed.

Lemma nested_visitRule_nomatch (st : Store) (rule : Rule) :
  (forall d, In d (declarations (nodes rule)) -> predicate options d = false) ->
  visitRule options st rule = (st, rule).
Proof.
  intros H. destruct (skipped options rule) eqn:Hs.
  - now apply nested_visitRule_skipped.
  - rewrite nested_visitRule_unskipped by assumption.
    unfold matched. rewrite (filter_none _ _ _ H).
    now rewrite (withoutMatching_none _ H), setNodes_nodes.
Qed.

Lemma declarations_left (ns : list Node) (d : Declaration) :
  In d (declarations (withoutMatching options ns)) ->
  predicate options d = false.
Proof.
  rewrite declarations_withoutMatching. intros H.
  apply filter_In in H as [_ H]. now apply negb_true_iff.
Qed.


(** X4.  For a rule the hook does not skip and that has a matching
    declaration below it, the hook splits the declarations in two: the
    rule keeps everything but the matching declarations; the fallback
    rule recorded for it holds the matching declarations of every
    depth, in document order, each with its property and its value but
    without its [important] flag; the capable rule holds the same with
    the value renamed; no declaration is lost or added. *)
Theorem visitRule_partition
        (st : Store) (rule : Rule) (declaration : Declaration) :
  includes (selector rule) ("." ++ noWebpClass options) = false ->
  In declaration (declarations (nodes rule)) ->
  predicate options declaration = true ->
  exists noWebpRule webpRule,
    Map_get (noWebpRules (fst (visitRule options st rule))) (ref rule)
    = Some noWebpRule
    /\ Map_get (webpRules (fst (visitRule options st rule))) (ref rule)
       = Some webpRule
    /\ nodes (snd (visitRule options st rule))
       = withoutMatching options (nodes rule)
    /\ declarations (nodes (snd (visitRule options st rule)))
       = filter (fun d => negb (predicate options d))
                (declarations (nodes rule))
    /\ nodes noWebpRule
       = map (fun d => Decl (mkDeclaration (prop d) (value d) false))
             (filter (predicate options) (declarations (nodes rule)))
    /\ nodes webpRule
       = map (fun d => Decl (mkDeclaration (prop d) (rename options d) false))
             (filter (predicate options) (declarations (nodes rule)))
    /\ List.length (declarations (nodes rule))
       = List.length (declarations (nodes (snd (visitRule options st rule))))
         + List.length (nodes noWebpRule).
Proof.
  intros Hsk Hin Hp.
  rewrite (nested_visitRule_unskipped st rule Hsk).
  assert (Hm : In declaration (matched options rule)).
  { apply filter_In. now split. }
  destruct (matched options rule) as [|d ds] eqn:E; [destruct Hm|].
  cbn [fst snd noWebpRules webpRules].
  exists (noWebpVariant options rule (fresh st)),
         (webpVariant options rule (S (fresh st))).
  assert (Hn : nodes (noWebpVariant options rule (fresh st))
               = map (fun d => Decl (mkDeclaration (prop d) (value d) false))
                     (filter (predicate options) (declarations (nodes rule)))).
  { unfold noWebpVariant. fold (matched options rule).
    destruct (addNoJs options); cbn [nodes newRule setSelectors];
      rewrite map_map; reflexivity. }
  assert (Hk : declarations (nodes (setNodes rule
                                      (withoutMatching options (nodes rule))))
               = filter (fun d => negb (predicate options d))
                        (declarations (nodes rule))).
  { destruct rule. apply declarations_withoutMatching. }
  split; [apply nested_Map_get_set|]. split; [apply nested_Map_get_set|].
  split; [now destruct rule|]. split; [exact Hk|]. split; [exact Hn|].
  split.
  - unfold webpVariant. fold (matched options rule).
    cbn [nodes newRule]. rewrite map_map. reflexivity.
  - rewrite Hk, Hn, length_map. apply filter_both_lengths.
Qed.

(** X5.  Whatever rules the hook of a fresh plugin instance is called
    on, and in whatever order, the two maps have the same keys in the
    same order afterwards: a rule has a fallback variant exactly when it
    has a capable one; and every key is one of those rules, not skipped
    and with a matching declaration below it. *)
Theorem calls_maps_in_step (rules : list Rule) (next : nat) :
  let st := calls options (mkStore [] [] next) rules in
  map fst (noWebpRules st) = map fst (webpRules st)
  /\ forall k,
       In k (map fst (noWebpRules st)) ->
       exists rule declaration,
         In rule rules /\ ref rule = k
         /\ includes (selector rule) ("." ++ noWebpClass options) = false
         /\ In declaration (declarations (nodes rule))
         /\ predicate options declaration = true.
Proof.
  cbv zeta. split.
  - now apply calls_in_step.
  - intros k H. apply calls_keys in H as [[]|(rule & Hin & Hk & Hs & Hm)].
    unfold matched in Hm.
    destruct (filter (predicate options) (declarations (nodes rule)))
      as [|d ds] eqn:E; [now elim Hm|].
    assert (Hd : In d (filter (predicate options) (declarations (nodes rule)))).
    { rewrite E. now left. }
    apply filter_In in Hd as [Hd Hp].
    exists rule, d. repeat split; auto.
Qed.

End NestedHookFacts.

Section NestedSelectorFacts.

Import Nested.

Variable options : IPluginOptions.

Lemma map_fixed (A : Type) (f : A -> A) (l : list A) :
  (forall x, In x l -> f x = x) -> map f l = l.
Proof.
  induction l as [|x l IH]; simpl; intros H; [reflexivity|].
  rewrite (H x) by now left. f_equal. apply IH. intros y Hy. apply H. now right.
Qed.

Lemma transformSelectors_nonempty (rule : Rule) (className : string) :
  transformSelectors options (selectors rule) className <> [].
Proof.
  unfold transformSelectors, selectors.
  pose proof (comma_nonempty (selector rule)) as H.
  destruct (comma (selector rule)); [now elim H|discriminate].
Qed.

(** What [rule.selectors] reads from a new rule. *)
Lemma selectors_newRule (r : nat) (values : list string)
      (declarations : list DeclarationProps) :
  values <> [] ->
  (forall s, In s values -> isolated (trim s) = true /\ trim s <> "") ->
  selectors (newRule r values declarations) = map trim values.
Proof.
  intros Hne H. unfold selectors, newRule. cbn [selector].
  apply comma_join; [now exists " "|assumption|].
  intros x Hx. destruct (H x Hx) as [Hi Ht].
  split; [now apply isolated_of_trim|now apply trim_nonempty].
Qed.

(** What [rule.selectors] reads from the fallback rule once the
    no-script selectors have gone through the setter. *)
Lemma selectors_after_setter (r : nat) (first second : list string)
      (declarations : list DeclarationProps) :
  first <> [] ->
  (forall s, In s (first ++ second)%list ->
             isolated (trim s) = true /\ trim s <> "") ->
  selectors (setSelectors (newRule r first declarations)
                          (selectors (newRule r first declarations) ++ second))
  = map trim (first ++ second)%list.
Proof.
  intros Hne H.
  rewrite selectors_newRule;
    [|assumption|intros s Hs; apply H, in_or_app; now left].
  unfold selectors, setSelectors, newRule. cbn [selector].
  rewrite comma_join.
  - rewrite !map_app, map_map. f_equal. apply map_ext. apply trim_twice.
  - apply separator_form.
  - destruct first; [now elim Hne|discriminate].
  - intros x Hx. apply in_app_or in Hx as [Hx|Hx].
    + apply in_map_iff in Hx as (y & <- & Hy).
      apply H, in_or_app. now left.
    + destruct (H x) as [Hi Ht]; [apply in_or_app; now right|].
      split; [now apply isolated_of_trim|now apply trim_nonempty].
Qed.

(** C9, as amended.  When the [addNoJs] option is true and the hook
    produces a fallback variant for a rule, and every selector the
    selector transformer returns for the fallback class and for the
    no-script class reads, once trimmed, as one selector that is not
    empty, the selector list of the variant is the output for the
    fallback class followed by the output for the no-script class, each
    selector trimmed of the white space at its ends; it is the plain
    concatenation when no selector of the two outputs has white space at
    its ends.  The selector text of the variant is the trimmed selectors
    of the first output and the selectors of the second as they are,
    joined by the separator of the first text. *)
Theorem fallback_selectors_with_noJs
        (st : Store) (rule : Rule) (declaration : Declaration) :
  addNoJs options = true ->
  includes (selector rule) ("." ++ noWebpClass options) = false ->
  In declaration (declarations (nodes rule)) ->
  predicate options declaration = true ->
  (forall s,
      In s (transformSelectors options (selectors rule) (noWebpClass options)
              ++ transformSelectors options (selectors rule) (noJsClass options))%list ->
      isolated (trim s) = true /\ trim s <> "") ->
  exists noWebpRule,
    Map_get (noWebpRules (fst (visitRule options st rule))) (ref rule)
    = Some noWebpRule
    /\ selectors noWebpRule
       = map trim
             (transformSelectors options (selectors rule) (noWebpClass options)
                ++ transformSelectors options (selectors rule) (noJsClass options))%list
    /\ ((forall s,
            In s (transformSelectors options (selectors rule) (noWebpClass options)
                    ++ transformSelectors options (selectors rule)
                                          (noJsClass options))%list ->
            trim s = s) ->
        selectors noWebpRule
        = (transformSelectors options (selectors rule) (noWebpClass options)
             ++ transformSelectors options (selectors rule) (noJsClass options))%list)
    /\ selector noWebpRule
       = join (separator
                 (join ", " (transformSelectors options (selectors rule)
                                                (noWebpClass options))))
              (map trim (transformSelectors options (selectors rule)
                                            (noWebpClass options))
                 ++ transformSelectors options (selectors rule)
                                       (noJsClass options))%list.
Proof.
  intros Hjs Hsk Hin Hp H.
  rewrite (nested_visitRule_unskipped options st rule Hsk).
  assert (Hm : In declaration (matched options rule)).
  { apply filter_In. now split. }
  destruct (matched options rule) as [|d ds] eqn:E; [destruct Hm|].
  cbn [fst noWebpRules].
  exists (noWebpVariant options rule (fresh st)).
  split; [apply nested_Map_get_set|].
  assert (Hsel : selectors (noWebpVariant options rule (fresh st))
                 = map trim
                       (transformSelectors options (selectors rule)
                                           (noWebpClass options)
                          ++ transformSelectors options (selectors rule)
                                                (noJsClass options))%list).
  { unfold noWebpVariant. rewrite Hjs.
    apply selectors_after_setter; [apply transformSelectors_nonempty|exact H]. }
  split; [exact Hsel|]. split.
  - intros Hfix. rewrite Hsel. now apply map_fixed.
  - unfold noWebpVariant. rewrite Hjs.
    rewrite selectors_newRule;
      [reflexivity|apply transformSelectors_nonempty|].
    intros s Hs. apply H, in_or_app. now left.
Qed.

End NestedSelectorFacts.


Lemma fallback_selectors_with_noJs_witness :
  exists noWebpRule,
    Nested.Map_get
      (Nested.noWebpRules
         (fst (Nested.visitRule Nested.withNoJs (Nested.mkStore [] [] 1)
                                Nested.mainRule))) 0
    = Some noWebpRule
    /\ Nested.selectors noWebpRule = ["html.no-webp main"; "html.no-js main"]
    /\ Nested.selector noWebpRule = "html.no-webp main, html.no-js main ".
Proof.
  destruct (fallback_selectors_with_noJs
              Nested.withNoJs (Nested.mkStore [] [] 1) Nested.mainRule
              (Nested.mkDeclaration "background" "url(a.png)" false))
    as (v & Hv & Hs & _ & Ht).
  - reflexivity.
  - reflexivity.
  - now left.
  - reflexivity.
  - intros s [<-|[<-|[]]]; split; (reflexivity || discriminate).
  - exists v. split; [exact Hv|]. split; [exact Hs|exact Ht].
Defined.

(** C9, counterexample.  With [addNoJs], the rule [main :root] gets a
    fallback variant; the selector transformer returns [html.no-webp
    main ] and [html.no-js main ], each with a space at its end, and the
    selector list of the variant has neither space. *)
Lemma fallback_selectors_not_the_concatenation :
  Nested.addNoJs Nested.withNoJs = true
  /\ (Nested.transformSelectors Nested.withNoJs
        (Nested.selectors Nested.mainRule) "no-webp"
        ++ Nested.transformSelectors Nested.withNoJs
             (Nested.selectors Nested.mainRule) "no-js")%list
     = ["html.no-webp main "; "html.no-js main "]
  /\ exists noWebpRule,
       Nested.Map_get
         (Nested.noWebpRules
            (fst (Nested.visitRule Nested.withNoJs (Nested.mkStore [] [] 1)
                                   Nested.mainRule))) 0
       = Some noWebpRule
       /\ Nested.selectors noWebpRule = ["html.no-webp main"; "html.no-js main"]
       /\ Nested.selectors noWebpRule
          <> (Nested.transformSelectors Nested.withNoJs
                (Nested.selectors Nested.mainRule) "no-webp"
                ++ Nested.transformSelectors Nested.withNoJs
                     (Nested.selectors Nested.mainRule) "no-js")%list.
Proof.
  split; [reflexivity|]. split; [reflexivity|].
  eexists. split; [reflexivity|]. split; [reflexivity|].
  vm_compute. discriminate.
Qed.

(** X18.  Two fallback rules worked out with [addNoJs].  A comma
    inside parentheses or quotes does not split a selector, the space
    left by [:root] is trimmed from the list and not from the text, and
    the selectors are joined by the first comma of the fallback text
    with the white space after it: a comma and a space for the first
    rule, a comma alone for the second. *)
Theorem fallback_selectors_examples :
  option_map (fun v => (Nested.selector v, Nested.selectors v))
    (Nested.Map_get
       (Nested.noWebpRules
          (fst (Nested.visitRule Nested.withNoJs (Nested.mkStore [] [] 1)
                                 Nested.listRule))) 0)
  = Some ("html.no-webp a:is(.x, .y), html.no-webp b[title='p,q'], html.no-js a:is(.x, .y), html.no-js b[title='p,q'] ",
          ["html.no-webp a:is(.x, .y)"; "html.no-webp b[title='p,q']";
           "html.no-js a:is(.x, .y)"; "html.no-js b[title='p,q']"])
  /\ option_map (fun v => (Nested.selector v, Nested.selectors v))
       (Nested.Map_get
          (Nested.noWebpRules
             (fst (Nested.visitRule Nested.withNoJs (Nested.mkStore [] [] 1)
                                    Nested.tightRule))) 0)
     = Some ("html.no-webp :is(.x,.y) a,html.no-js :is(.x,.y) a",
             ["html.no-webp :is(.x,.y) a"; "html.no-js :is(.x,.y) a"]).
Proof. split; vm_compute; reflexivity. Qed.

Lemma visitRule_partition_witness :
  exists noWebpRule webpRule,
    Nested.Map_get
      (Nested.noWebpRules
         (fst (Nested.visitRule Nested.defaults (Nested.mkStore [] [] 2)
                                Nested.outerRule))) 0
    = Some noWebpRule
    /\ Nested.Map_get
         (Nested.webpRules
            (fst (Nested.visitRule Nested.defaults (Nested.mkStore [] [] 2)
                                   Nested.outerRule))) 0
       = Some webpRule
    /\ Nested.nodes noWebpRule
       = [Nested.Decl (Nested.mkDeclaration "background" "url(y.png)" false);
          Nested.Decl (Nested.mkDeclaration "background" "url(x.png)" false)]
    /\ Nested.nodes webpRule
       = [Nested.Decl (Nested.mkDeclaration "background" "url(y.webp)" false);
          Nested.Decl (Nested.mkDeclaration "background" "url(x.webp)" false)].
Proof.
  destruct (visitRule_partition Nested.defaults (Nested.mkStore [] [] 2)
              Nested.outerRule
              (Nested.mkDeclaration "background" "url(x.png)" false))
    as (v1 & v2 & H1 & H2 & _ & _ & H5 & H6 & _).
  - reflexivity.
  - right. now left.
  - reflexivity.
  - exists v1, v2. repeat split; assumption.
Defined.

(** ** Facts about a run over the full tree *)

Section NestedRunFacts.

Import Nested.

Variable options : IPluginOptions.

Lemma heightOf_app (a b : list Node) :
  heightOf (a ++ b)%list = Nat.max (heightOf a) (heightOf b).
Proof. unfold heightOf. now rewrite map_app, list_max_app. Qed.

Lemma height_rule (r : Rule) :
  height (RuleNode r) = S (heightOf (nodes r)).
Proof. now destruct r. Qed.

Lemma height_block (name params : string) (children : list Node) :
  height (AtRule name params children) = S (heightOf children).
Proof. reflexivity. Qed.

Lemma height_withoutMatching (ns : list Node) :
  heightOf (withoutMatching options ns) <= heightOf ns.
Proof.
  unfold withoutMatching. pattern ns.
  apply Nested_forest_induction with
    (P := fun n => heightOf (withoutMatchingNode options n) <= height n);
    clear ns.
  - intros d. simpl. destruct (predicate options d); cbn; lia.
  - intros text. cbn. lia.
  - intros [r s ns] IH. cbn in *. fold (heightOf ns).
    fold (heightOf (flat_map (withoutMatchingNode options) ns)). lia.
  - intros name params children IH. cbn in *. fold (heightOf children).
    fold (heightOf (flat_map (withoutMatchingNode options) children)). lia.
  - cbn. lia.
  - intros n ns Hn Hns. cbn [flat_map]. rewrite heightOf_app.
    change (heightOf (n :: ns)) with (Nat.max (height n) (heightOf ns)). lia.
Qed.

Lemma calls_app (st : Store) (l1 l2 : list Rule) :
  calls options st (l1 ++ l2) = calls options (calls options st l1) l2.
Proof. apply fold_left_app. Qed.

(** Below a rule the hook has been through, the walk finds nothing to
    do. *)
Lemma walk_quiet (fuel : nat) :
  forall (ns : list Node) (st : Store),
    heightOf ns < fuel ->
    (forall d, In d (declarations ns) -> predicate options d = false) ->
    walk options fuel st ns = Some (st, ns).
Proof.
  induction fuel as [|fuel IHf]; intros ns st Hh Hd; [lia|].
  cbn [walk]. revert st Hh Hd.
  induction ns as [|n ns IH]; intros st Hh Hd; [reflexivity|].
  change (heightOf (n :: ns)) with (Nat.max (height n) (heightOf ns)) in Hh.
  assert (Hn : walkNode options (walk options fuel) st n = Some (st, n)).
  { destruct n as [d|text|r|name params children]; try reflexivity.
    - cbn [walkNode].
      rewrite nested_visitRule_nomatch.
      + rewrite IHf.
        * now rewrite setNodes_nodes.
        * rewrite height_rule in Hh. lia.
        * intros d Hin. apply Hd. unfold declarations. cbn [flat_map].
          apply in_or_app. left. exact Hin.
      + intros d Hin. apply Hd. unfold declarations. cbn [flat_map].
        apply in_or_app. left. exact Hin.
    - cbn [walkNode]. rewrite IHf; [reflexivity| |].
      + rewrite height_block in Hh. lia.
      + intros d Hin. apply Hd. unfold declarations. cbn [flat_map].
        apply in_or_app. left. exact Hin. }
  cbn [walkNodes]. rewrite Hn, IH; [reflexivity|lia|].
  intros d Hin. apply Hd. unfold declarations. cbn [flat_map].
  apply in_or_app. right. exact Hin.
Qed.

Lemma calls_splitter (st : Store) (rule : Rule) :
  skipped options rule = false ->
  calls options st (match matched options rule with
                    | [] => []
                    | _ :: _ => [rule]
                    end)
  = fst (visitRule options st rule).
Proof.
  intros Hs. rewrite (nested_visitRule_unskipped options st rule Hs).
  destruct (matched options rule) eqn:E; cbn [calls fold_left fst].
  - reflexivity.
  - now rewrite (nested_visitRule_unskipped options st rule Hs), E.
Qed.

(** The walk, given fuel beyond the height of the tree: the hook is
    called with effect on the splitters, in document order, and the tree
    comes out stripped. *)
Lemma walk_strip (fuel : nat) :
  forall (ns : list Node) (st : Store),
    heightOf ns < fuel ->
    walk options fuel st ns
    = Some (calls options st (splitters options ns), strip options ns).
Proof.
  induction fuel as [|fuel IHf]; intros ns st Hh; [lia|].
  cbn [walk]. revert st Hh.
  induction ns as [|n ns IH]; intros st Hh; [reflexivity|].
  change (heightOf (n :: ns)) with (Nat.max (height n) (heightOf ns)) in Hh.
  assert (Hn : walkNode options (walk options fuel) st n
               = Some (calls options st (splittersNode options n),
                       stripNode options n)).
  { destruct n as [d|text|r|name params children]; try reflexivity.
    - cbn [walkNode splittersNode stripNode].
      assert (Hr : heightOf (nodes r) < fuel).
      { rewrite height_rule in Hh. lia. }
      destruct (skipped options r) eqn:Hs.
      + rewrite (nested_visitRule_skipped options st r Hs).
        now rewrite (IHf _ _ Hr).
      + rewrite (calls_splitter st r Hs).
        rewrite (nested_visitRule_unskipped options st r Hs). cbn [fst].
        destruct r as [r s rs]. cbn [setNodes ref selector nodes] in *.
        rewrite walk_quiet; [reflexivity| |apply declarations_left].
        pose proof (height_withoutMatching rs). lia.
    - cbn [walkNode splittersNode stripNode]. rewrite IHf; [reflexivity|].
      rewrite height_block in Hh. lia. }
  cbn [walkNodes]. rewrite Hn, IH by lia.
  unfold splitters, strip. cbn [flat_map map]. now rewrite calls_app.
Qed.

Lemma transform_strip (root : Root) :
  transform options root
  = Some (OnceExit
            (calls options (mkStore [] [] (S (list_max (refs root))))
                   (splitters options root))
            (strip options root)).
Proof. unfold transform. rewrite walk_strip; [reflexivity|lia]. Qed.

(** X19.  Over any tree, however deep the rules are nested, the run
    returns: the walk has called the hook, with effect, on the rules
    that split, in document order, it has left the tree stripped, and
    the finalizer has placed the recorded rules in that tree. *)
Theorem transform_returns (root : Root) :
  transform options root
  = Some (OnceExit
            (calls options (mkStore [] [] (S (list_max (refs root))))
                   (splitters options root))
            (strip options root)).
Proof. apply transform_strip. Qed.

Lemma declarations_below (ns : list Node) (inner : Rule) (d : Declaration) :
  In inner (rulesOf ns) ->
  In d (declarations (nodes inner)) ->
  In d (declarations ns).
Proof.
  unfold rulesOf, declarations at 2. pattern ns.
  apply Nested_forest_induction with
    (P := fun n =>
            In inner (rulesOfNode n) ->
            In d (declarations (nodes inner)) ->
            In d (declarationsOf n));
    clear ns.
  - intros d' [].
  - intros text [].
  - intros r IH [<-|Hin] Hd; cbn [declarationsOf]; [exact Hd|].
    now apply IH.
  - intros name params children IH Hin Hd. now apply IH.
  - intros [].
  - intros n ns Hn Hns Hin Hd. cbn [flat_map] in *.
    apply in_or_app. apply in_app_or in Hin as [Hin|Hin]; auto.
Qed.

(** X20.  Once the hook has been through a rule it does not skip,
    nothing is left for it to move: called again on that rule, or on
    any rule inside it, at whatever depth, the hook records nothing and
    changes nothing. *)
Theorem visitRule_leaves_nothing_below
        (st st' : Store) (rule inner : Rule) :
  includes (selector rule) ("." ++ noWebpClass options) = false ->
  In inner (rulesOf [RuleNode (snd (visitRule options st rule))]) ->
  visitRule options st' inner = (st', inner).
Proof.
  intros Hs Hin. apply nested_visitRule_nomatch. intros d Hd.
  rewrite (nested_visitRule_unskipped options st rule Hs) in Hin.
  cbn [snd] in Hin.
  apply (declarations_left options (nodes rule)).
  destruct Hin as [<-|Hin].
  - destruct rule as [r s ns]. exact Hd.
  - unfold rulesOf in Hin. cbn [flat_map rulesOfNode] in Hin.
    rewrite List.app_nil_r in Hin.
    apply (declarations_below _ inner d); [|exact Hd].
    destruct rule as [r s ns]. exact Hin.
Qed.

Lemma nothing_to_split (root : Root) :
  (forall rule,
      In rule (rulesOf root) ->
      includes (selector rule) ("." ++ noWebpClass options) = true
      \/ forall d, In d (declarations (nodes rule)) ->
                   predicate options d = false) ->
  splitters options root = [] /\ strip options root = root.
Proof.
  unfold rulesOf, splitters, strip. pattern root.
  apply Nested_forest_induction with
    (P := fun n =>
            (forall rule,
                In rule (rulesOfNode n) ->
                includes (selector rule) ("." ++ noWebpClass options) = true
                \/ forall d, In d (declarations (nodes rule)) ->
                             predicate options d = false) ->
            splittersNode options n = [] /\ stripNode options n = n);
    clear root.
  - now split.
  - now split.
  - intros r IH H. cbn [splittersNode stripNode].
    destruct (skipped options r) eqn:Hs.
    + destruct IH as [IH1 IH2].
      { intros rule Hin. apply H. cbn [rulesOfNode]. now right. }
      rewrite IH1, IH2, setNodes_nodes. now split.
    + destruct (H r) as [Hk|Hd]; [now left| |].
      { unfold skipped in Hs. congruence. }
      unfold matched. rewrite (filter_none _ _ _ Hd).
      now rewrite (withoutMatching_none _ _ Hd), setNodes_nodes.
  - intros name params children IH H. cbn [splittersNode stripNode].
    destruct (IH H) as [IH1 IH2]. now rewrite IH1, IH2.
  - now split.
  - intros n ns Hn Hns H. cbn [flat_map map].
    destruct Hn as [Hn1 Hn2].
    { intros rule Hin. apply H. cbn [flat_map]. apply in_or_app. now left. }
    destruct Hns as [Hs1 Hs2].
    { intros rule Hin. apply H. cbn [flat_map]. apply in_or_app. now right. }
    now rewrite Hn1, Hn2, Hs1, Hs2.
Qed.

(** X6.  A tree in which every rule, at whatever depth, either carries
    the fallback marker class or has no declaration the classifier
    accepts anywhere below it comes out of a run exactly as it went
    in. *)
Theorem transform_without_match (root : Root) :
  (forall rule,
      In rule (rulesOf root) ->
      includes (selector rule) ("." ++ noWebpClass options) = true
      \/ forall d, In d (declarations (nodes rule)) ->
                   predicate options d = false) ->
  transform options root = Some root.
Proof.
  intros H. rewrite transform_strip.
  destruct (nothing_to_split root H) as [-> ->]. reflexivity.
Qed.

End NestedRunFacts.

Section NestedCountFacts.

Import Nested.

Variable options : IPluginOptions.

Lemma distinct_app_iff (l1 l2 : list nat) :
  distinct (l1 ++ l2)%list = true
  <-> distinct l1 = true /\ distinct l2 = true
      /\ forall x, In x l1 -> ~ In x l2.
Proof.
  induction l1 as [|a l1 IH]; simpl.
  - split; [intros H; repeat split; auto|now intros (_ & H & _)].
  - rewrite !andb_true_iff, !negb_true_iff, IH, existsb_app, orb_false_iff.
    split.
    + intros ((Ha1 & Ha2) & H1 & H2 & H3). repeat split; auto.
      intros x [E|Hx] Hin; [subst x|now apply (H3 x)].
      assert (existsb (Nat.eqb a) l2 = true); [|congruence].
      apply existsb_exists. exists a. split; [assumption|apply Nat.eqb_refl].
    + intros ((Ha1 & H1) & H2 & H3).
      split; [split; [exact Ha1|]|split; [exact H1|split; [exact H2|]]].
      * destruct (existsb (Nat.eqb a) l2) eqn:E; [|reflexivity].
        apply existsb_exists in E as (x & Hx & Ex).
        apply Nat.eqb_eq in Ex. subst x. elim (H3 a); auto.
      * intros x Hx. apply H3. now right.
Qed.

Lemma distinct_absent (k : nat) (l : list nat) :
  distinct (l ++ [k])%list = true -> ~ In k l.
Proof.
  intros H Hin. apply distinct_app_iff in H as (_ & _ & H).
  apply (H k Hin). now left.
Qed.

Lemma occurs_once (k : nat) (l : list nat) :
  distinct l = true -> In k l ->
  list_sum (map (fun x => if Nat.eqb x k then 1 else 0) l) = 1.
Proof.
  induction l as [|a l IH]; simpl; [intros _ []|].
  intros H Hin. apply andb_true_iff in H as [Ha Hl].
  apply negb_true_iff in Ha.
  destruct (Nat.eqb a k) eqn:E.
  - apply Nat.eqb_eq in E. subst a.
    assert (Hz : forall l', existsb (Nat.eqb k) l' = false ->
                 list_sum (map (fun x => if Nat.eqb x k then 1 else 0) l') = 0).
    { clear. induction l' as [|b l' IH]; simpl; [reflexivity|].
      intros H. apply orb_false_iff in H as [Hb Hl].
      rewrite Nat.eqb_sym, Hb. now apply IH. }
    now rewrite Hz.
  - destruct Hin as [->|Hin]; [now rewrite Nat.eqb_refl in E|].
    now rewrite IH.
Qed.

Lemma sum_cons (a : nat) (l : list nat) : list_sum (a :: l) = a + list_sum l.
Proof. reflexivity. Qed.

Lemma length_as_sum (l : list nat) :
  List.length l = list_sum (map (fun _ => 1) l).
Proof. induction l; simpl; auto. Qed.

(** Inserting a rule without rules inside: what it adds to a sum over
    the references of the tree. *)
Lemma weight_after (g : nat -> nat) (k : nat) (v : Rule) (root : Root) :
  rulesOf (nodes v) = [] ->
  list_sum (map g (refs (after k v root)))
  = list_sum (map g (refs root))
    + list_sum (map (fun x => if Nat.eqb x k then 1 else 0) (refs root))
      * g (ref v).
Proof.
  intros Hv. unfold refs, after, rulesOf. pattern root.
  apply Nested_forest_induction with
    (P := fun n =>
            list_sum (map g (map ref (flat_map rulesOfNode (afterNode k v n))))
            = list_sum (map g (map ref (rulesOfNode n)))
              + list_sum (map (fun x => if Nat.eqb x k then 1 else 0)
                              (map ref (rulesOfNode n)))
                * g (ref v));
    clear root.
  - reflexivity.
  - reflexivity.
  - intros [x s rs] IH. cbn [afterNode nodes ref selector setNodes] in *.
    destruct (Nat.eqb x k) eqn:E.
    + unfold rulesOf in Hv. unfold setNodes.
      cbn [flat_map rulesOfNode nodes ref selector]. rewrite Hv.
      rewrite !map_app, list_sum_app. cbn [List.app map ref].
      rewrite !sum_cons, IH, E. cbn [list_sum fold_right].
      rewrite Nat.mul_add_distr_r. lia.
    + unfold setNodes. cbn [flat_map rulesOfNode nodes ref selector].
      rewrite List.app_nil_r. cbn [map ref].
      rewrite !sum_cons, IH, E. lia.
  - intros name params children IH.
    cbn [afterNode flat_map rulesOfNode]. now rewrite List.app_nil_r.
  - reflexivity.
  - intros n ns Hn Hns. cbn [flat_map].
    rewrite flat_map_app, !map_app, !list_sum_app, Hn, Hns. lia.
Qed.

Lemma fold_after_count (start : nat) (m : RuleMap) :
  forall root,
    (forall k v,
        In (k, v) m ->
        rulesOf (nodes v) = [] /\ start <= ref v /\ k < start
        /\ list_sum (map (fun x => if Nat.eqb x k then 1 else 0) (refs root))
           = 1) ->
    List.length
      (rulesOf (fold_left (fun root '(rule, v) => after rule v root) m root))
    = List.length (rulesOf root) + List.length m
    /\ forall k',
         k' < start ->
         list_sum (map (fun x => if Nat.eqb x k' then 1 else 0)
                       (refs (fold_left (fun root '(rule, v) => after rule v root)
                                        m root)))
         = list_sum (map (fun x => if Nat.eqb x k' then 1 else 0) (refs root)).
Proof.
  induction m as [|[k v] m IH]; intros root H;
    [split; [cbn [fold_left List.length]; lia|auto]|].
  destruct (H k v (or_introl eq_refl)) as (Hv & Hs & Hk & Ho).
  assert (Hocc : forall k',
             k' < start ->
             list_sum (map (fun x => if Nat.eqb x k' then 1 else 0)
                           (refs (after k v root)))
             = list_sum (map (fun x => if Nat.eqb x k' then 1 else 0)
                             (refs root))).
  { intros k' Hk'. rewrite (weight_after _ k v root Hv).
    destruct (Nat.eqb (ref v) k') eqn:E; [|lia].
    apply Nat.eqb_eq in E. lia. }
  cbn [fold_left]. destruct (IH (after k v root)) as [IH1 IH2].
  { intros k' v' Hin.
    destruct (H k' v' (or_intror Hin)) as (Hv' & Hs' & Hk' & Ho').
    repeat split; auto. now rewrite Hocc. }
  split.
  - rewrite IH1. cbn [List.length].
    assert (Hl : List.length (rulesOf (after k v root))
                 = List.length (rulesOf root) + 1).
    { rewrite <- (length_map ref (rulesOf (after k v root))).
      rewrite <- (length_map ref (rulesOf root)).
      fold (refs (after k v root)). fold (refs root).
      rewrite !length_as_sum, (weight_after _ k v root Hv), Ho. lia. }
    lia.
  - intros k' Hk'. now rewrite IH2, Hocc.
Qed.

Lemma Map_set_absent (m : RuleMap) (k : nat) (v : Rule) :
  ~ In k (map fst m) -> Map_set m k v = (m ++ [(k, v)])%list.
Proof.
  induction m as [|[k' v'] m IH]; simpl; intros H; [reflexivity|].
  destruct (Nat.eqb k' k) eqn:E.
  - apply Nat.eqb_eq in E. elim H. now left.
  - rewrite IH; [reflexivity|]. intros Hin. apply H. now right.
Qed.

Lemma variant_leaf (values : list string) (r : nat)
      (declarations : list DeclarationProps) :
  rulesOf (nodes (newRule r values declarations)) = [].
Proof.
  unfold newRule, rulesOf. cbn [nodes].
  induction declarations; simpl; auto.
Qed.

Lemma noWebpVariant_leaf (rule : Rule) (r : nat) :
  rulesOf (nodes (noWebpVariant options rule r)) = []
  /\ ref (noWebpVariant options rule r) = r.
Proof.
  unfold noWebpVariant. destruct (addNoJs options);
    (split; [apply variant_leaf|reflexivity]).
Qed.

Lemma webpVariant_leaf (rule : Rule) (r : nat) :
  rulesOf (nodes (webpVariant options rule r)) = []
  /\ ref (webpVariant options rule r) = r.
Proof. unfold webpVariant. split; [apply variant_leaf|reflexivity]. Qed.

(** The two maps after the hook has been called on rules that split. *)
Lemma calls_shape (start : nat) (rules : list Rule) :
  forall (st : Store) (keys : list nat),
    (forall r, In r rules ->
               skipped options r = false /\ matched options r <> []) ->
    distinct (keys ++ map ref rules)%list = true ->
    map fst (noWebpRules st) = keys ->
    map fst (webpRules st) = keys ->
    (forall k v, In (k, v) (noWebpRules st) \/ In (k, v) (webpRules st) ->
                 rulesOf (nodes v) = [] /\ start <= ref v) ->
    start <= fresh st ->
    map fst (noWebpRules (calls options st rules))
    = (keys ++ map ref rules)%list
    /\ map fst (webpRules (calls options st rules))
       = (keys ++ map ref rules)%list
    /\ forall k v,
         In (k, v) (noWebpRules (calls options st rules))
         \/ In (k, v) (webpRules (calls options st rules)) ->
         rulesOf (nodes v) = [] /\ start <= ref v.
Proof.
  induction rules as [|r rules IH]; intros st keys Hr Hd Hn Hw Hv Hf.
  - cbn. rewrite List.app_nil_r. auto.
  - change (calls options st (r :: rules))
      with (calls options (fst (visitRule options st r)) rules).
    destruct (Hr r (or_introl eq_refl)) as [Hs Hm].
    rewrite (nested_visitRule_unskipped options st r Hs).
    destruct (matched options r) as [|d ds] eqn:E; [now elim Hm|].
    cbn [fst].
    assert (Ek : (keys ++ map ref (r :: rules))%list
                 = ((keys ++ [ref r]) ++ map ref rules)%list).
    { now rewrite <- List.app_assoc. }
    rewrite Ek in *. clear Ek.
    assert (Hk : ~ In (ref r) keys).
    { apply distinct_absent.
      now apply distinct_app_iff in Hd as (Hd & _ & _). }
    apply IH.
    + intros r' Hr'. apply Hr. now right.
    + exact Hd.
    + cbn [noWebpRules]. rewrite Map_set_absent by now rewrite Hn.
      now rewrite map_app, Hn.
    + cbn [webpRules]. rewrite Map_set_absent by now rewrite Hw.
      now rewrite map_app, Hw.
    + cbn [noWebpRules webpRules].
      rewrite !Map_set_absent by (rewrite ?Hn, ?Hw; assumption).
      intros k v [Hin|Hin]; apply in_app_or in Hin as [Hin|[[= <- <-]|[]]].
      * apply (Hv k v). now left.
      * destruct (noWebpVariant_leaf r (fresh st)) as [H1 H2].
        rewrite H2. now split.
      * apply (Hv k v). now right.
      * destruct (webpVariant_leaf r (S (fresh st))) as [H1 H2].
        rewrite H2. split; [assumption|lia].
    + cbn [fresh]. lia.
Qed.

Lemma splitters_split (root : Root) (r : Rule) :
  In r (splitters options root) ->
  skipped options r = false /\ matched options r <> [].
Proof.
  unfold splitters. pattern root.
  apply Nested_forest_induction with
    (P := fun n =>
            In r (splittersNode options n) ->
            skipped options r = false /\ matched options r <> []);
    clear root.
  - intros d [].
  - intros text [].
  - intros x IH. cbn [splittersNode].
    destruct (skipped options x) eqn:Hs; [exact IH|].
    destruct (matched options x) eqn:E; [intros []|].
    intros [<-|[]]. split; [assumption|]. rewrite E. discriminate.
  - intros name params children IH. exact IH.
  - intros [].
  - intros n ns Hn Hns Hin. cbn [flat_map] in Hin.
    apply in_app_or in Hin as [Hin|Hin]; auto.
Qed.

Lemma splitters_refs (root : Root) :
  (forall x, In x (map ref (splitters options root)) -> In x (refs root))
  /\ (distinct (refs root) = true ->
      distinct (map ref (splitters options root)) = true).
Proof.
  unfold splitters, refs, rulesOf. pattern root.
  apply Nested_forest_induction with
    (P := fun n =>
            (forall x, In x (map ref (splittersNode options n)) ->
                       In x (map ref (rulesOfNode n)))
            /\ (distinct (map ref (rulesOfNode n)) = true ->
                distinct (map ref (splittersNode options n)) = true));
    clear root.
  - split; [intros x []|reflexivity].
  - split; [intros x []|reflexivity].
  - intros x [IH1 IH2]. cbn [splittersNode rulesOfNode map].
    destruct (skipped options x) eqn:Hs.
    + split.
      * intros y Hy. right. now apply IH1.
      * intros H. apply IH2. cbn [distinct] in H.
        now apply andb_true_iff in H as [_ H].
    + destruct (matched options x); split; try reflexivity.
      * intros y [].
      * intros y [<-|[]]. now left.
  - intros name params children IH. exact IH.
  - split; [intros x []|reflexivity].
  - intros n ns [Hn1 Hn2] [Hs1 Hs2]. cbn [flat_map]. rewrite !map_app. split.
    + intros x Hx. apply in_or_app. apply in_app_or in Hx as [Hx|Hx]; auto.
    + intros H. apply distinct_app_iff in H as (Ha & Hb & Hab).
      apply distinct_app_iff. repeat split; auto.
      intros x Hx Hx'. apply (Hab x); auto.
Qed.

Lemma refs_withoutMatching (ns : list Node) :
  refs (withoutMatching options ns) = refs ns.
Proof.
  unfold refs, rulesOf, withoutMatching. pattern ns.
  apply Nested_forest_induction with
    (P := fun n =>
            map ref (flat_map rulesOfNode (withoutMatchingNode options n))
            = map ref (rulesOfNode n));
    clear ns.
  - intros d. simpl. now destruct (predicate options d).
  - reflexivity.
  - intros [x s rs] IH.
    cbn [withoutMatchingNode flat_map rulesOfNode nodes setNodes ref selector] in *.
    rewrite List.app_nil_r. cbn [map ref]. now rewrite IH.
  - intros name params children IH.
    cbn [withoutMatchingNode flat_map rulesOfNode]. now rewrite List.app_nil_r.
  - reflexivity.
  - intros n ns Hn Hns. cbn [flat_map].
    now rewrite flat_map_app, !map_app, Hn, Hns.
Qed.

Lemma refs_strip (root : Root) : refs (strip options root) = refs root.
Proof.
  unfold refs, rulesOf, strip. pattern root.
  apply Nested_forest_induction with
    (P := fun n =>
            map ref (rulesOfNode (stripNode options n))
            = map ref (rulesOfNode n));
    clear root.
  - reflexivity.
  - reflexivity.
  - intros [x s rs] IH. cbn [stripNode].
    destruct (skipped options (mkRule x s rs)).
    + cbn [rulesOfNode nodes setNodes ref selector map] in *. now rewrite IH.
    + cbn [rulesOfNode nodes setNodes ref selector map].
      f_equal. apply refs_withoutMatching.
  - intros name params children IH. exact IH.
  - reflexivity.
  - intros n ns Hn Hns. cbn [flat_map map]. now rewrite !map_app, Hn, Hns.
Qed.

Lemma below_list_max (k : nat) (l : list nat) : In k l -> k <= list_max l.
Proof.
  intros H. pose proof (proj1 (list_max_le l (list_max l)) (Nat.le_refl _)) as F.
  rewrite Forall_forall in F. now apply F.
Qed.

(** X8.  A run removes no rule and adds two for each rule that splits:
    a rule that is not skipped, has a matching declaration below it and
    is not inside a rule that is not skipped. *)
Theorem transform_rule_count (root : Root) :
  distinct (refs root) = true ->
  exists result,
    transform options root = Some result
    /\ List.length (rulesOf result)
       = List.length (rulesOf root)
         + 2 * List.length (splitters options root).
Proof.
  intros Hd. rewrite transform_strip. eexists. split; [reflexivity|].
  set (start := S (list_max (refs root))).
  set (st := calls options (mkStore [] [] start) (splitters options root)).
  destruct (splitters_refs root) as [Hin Hdis].
  destruct (calls_shape start (splitters options root) (mkStore [] [] start) [])
    as (Hn & Hw & Hv); auto.
  { apply splitters_split. }
  { intros k v [[]|[]]. }
  fold st in Hn, Hw, Hv. cbn [List.app] in Hn, Hw.
  assert (Hkey : forall k,
             In k (map ref (splitters options root)) ->
             k < start
             /\ list_sum (map (fun x => if Nat.eqb x k then 1 else 0)
                              (refs (strip options root))) = 1).
  { intros k Hk. apply Hin in Hk. split.
    - unfold start. pose proof (below_list_max k _ Hk). lia.
    - rewrite refs_strip. now apply occurs_once. }
  unfold OnceExit.
  destruct (fold_after_count start (noWebpRules st) (strip options root))
    as [H1 H2].
  { intros k v Hkv. destruct (Hv k v (or_introl Hkv)) as [Hl Hs].
    destruct (Hkey k) as [Hk Ho].
    { rewrite <- Hn. apply (in_map fst _ _ Hkv). }
    repeat split; auto. }
  destruct (fold_after_count start (webpRules st)
              (fold_left (fun root '(rule, v) => after rule v root)
                         (noWebpRules st) (strip options root)))
    as [H3 _].
  { intros k v Hkv. destruct (Hv k v (or_intror Hkv)) as [Hl Hs].
    destruct (Hkey k) as [Hk Ho].
    { rewrite <- Hw. apply (in_map fst _ _ Hkv). }
    repeat split; auto. now rewrite H2. }
  rewrite H3, H1.
  rewrite <- (length_map fst (noWebpRules st)), Hn.
  rewrite <- (length_map fst (webpRules st)), Hw.
  rewrite length_map.
  rewrite <- (length_map ref (rulesOf (strip options root))).
  fold (refs (strip options root)). rewrite refs_strip.
  unfold refs. rewrite length_map. lia.
Qed.

End NestedCountFacts.

Lemma transform_without_match_witness :
  Nested.transform Nested.defaults
    [Nested.RuleNode
       (Nested.mkRule 0 "a"
          [Nested.Decl (Nested.mkDeclaration "position" "relative" false);
           Nested.RuleNode
             (Nested.mkRule 1 "b"
                [Nested.Decl (Nested.mkDeclaration "color" "red" false)])]);
     Nested.RuleNode
       (Nested.mkRule 2 "html.no-webp c"
          [Nested.Decl (Nested.mkDeclaration "background" "url(x.gif)" false)])]
  = Some
      [Nested.RuleNode
         (Nested.mkRule 0 "a"
            [Nested.Decl (Nested.mkDeclaration "position" "relative" false);
             Nested.RuleNode
               (Nested.mkRule 1 "b"
                  [Nested.Decl (Nested.mkDeclaration "color" "red" false)])]);
       Nested.RuleNode
         (Nested.mkRule 2 "html.no-webp c"
            [Nested.Decl (Nested.mkDeclaration "background" "url(x.gif)"
                                               false)])].
Proof.
  apply transform_without_match.
  intros rule [<-|[<-|[<-|[]]]].
  - right. intros d [<-|[<-|[]]]; reflexivity.
  - right. intros d [<-|[]]. reflexivity.
  - left. reflexivity.
Defined.

Lemma transform_rule_count_witness :
  exists result,
    Nested.transform Nested.defaults [Nested.RuleNode Nested.outerRule]
    = Some result
    /\ List.length (Nested.rulesOf result) = 4.
Proof.
  apply (transform_rule_count Nested.defaults
           [Nested.RuleNode Nested.outerRule]).
  reflexivity.
Defined.

Lemma visitRule_leaves_nothing_below_witness :
  Nested.visitRule Nested.defaults (Nested.mkStore [] [] 9)
    (Nested.mkRule 1 "b"
       [Nested.Decl (Nested.mkDeclaration "color" "red" false)])
  = (Nested.mkStore [] [] 9,
     Nested.mkRule 1 "b"
       [Nested.Decl (Nested.mkDeclaration "color" "red" false)]).
Proof.
  apply (visitRule_leaves_nothing_below Nested.defaults
           (Nested.mkStore [] [] 2) (Nested.mkStore [] [] 9)
           Nested.outerRule).
  - reflexivity.
  - right. now left.
Defined.

(** ** The plain model is the full one on plain stylesheets *)

Section PlainFacts.

Variable o : Nested.IPluginOptions.

Local Abbreviation po := (plainOptions o).

Lemma embed_matched (ns : list ChildNode) :
  filter (Nested.predicate o) (Nested.declarations (map embedChild ns))
  = map embedDeclaration (matchedDecls po ns).
Proof.
  unfold Nested.declarations.
  induction ns as [|[d|text] ns IH]; simpl; auto.
  destruct (Nested.predicate o (embedDeclaration d)); simpl; now rewrite IH.
Qed.

Lemma embed_kept (ns : list ChildNode) :
  Nested.withoutMatching o (map embedChild ns)
  = map embedChild (keptNodes po ns).
Proof.
  unfold Nested.withoutMatching.
  induction ns as [|[d|text] ns IH]; simpl; auto.
  - destruct (Nested.predicate o (embedDeclaration d)); simpl; now rewrite IH.
  - now rewrite IH.
Qed.

Lemma embed_newRule (r : nat) (values : list string)
      (declarations : list Declaration) :
  embedRule (newRule r values declarations)
  = Nested.newRule r values declarations.
Proof.
  unfold embedRule, newRule, Nested.newRule. cbn [ref selector nodes].
  now rewrite map_map.
Qed.

Lemma embed_transformSelectors (values : list string) (className : string) :
  Nested.transformSelectors o values className
  = transformSelectors po values className.
Proof. reflexivity. Qed.

Lemma embed_noWebpVariant (rule : Rule) (r : nat) :
  readsBack o rule ->
  Nested.noWebpVariant o (embedRule rule) r
  = embedRule (noWebpVariant po rule r).
Proof.
  intros [Hsel Hjs].
  unfold Nested.noWebpVariant, noWebpVariant, Nested.matched.
  cbn [Nested.nodes embedRule]. rewrite embed_matched, map_map.
  assert (Hs : Nested.selectors (embedRule rule) = selectors rule).
  { now rewrite Hsel. }
  rewrite !Hs, !embed_transformSelectors.
  change (addNoJs po) with (Nested.addNoJs o).
  change (noWebpClass po) with (Nested.noWebpClass o).
  change (noJsClass po) with (Nested.noJsClass o).
  change (fun x : Declaration =>
            mkDecl (Nested.prop (embedDeclaration x))
                   (Nested.value (embedDeclaration x)))
    with (fun d : Declaration => mkDecl (prop d) (value d)).
  destruct (Nested.addNoJs o) eqn:E.
  - rewrite <- embed_newRule.
    unfold Nested.setSelectors, Nested.selectors, setSelectors, embedRule.
    cbn [Nested.ref Nested.selector Nested.nodes ref selector nodes newRule
         selectors].
    now rewrite (Hjs eq_refl).
  - now rewrite embed_newRule.
Qed.

Lemma embed_webpVariant (rule : Rule) (r : nat) :
  readsBack o rule ->
  Nested.webpVariant o (embedRule rule) r = embedRule (webpVariant po rule r).
Proof.
  intros [Hsel _].
  unfold Nested.webpVariant, webpVariant, Nested.matched.
  cbn [Nested.nodes embedRule]. rewrite embed_matched, map_map.
  assert (Hs : Nested.selectors (embedRule rule) = selectors rule).
  { now rewrite Hsel. }
  rewrite Hs, embed_transformSelectors, embed_newRule. reflexivity.
Qed.

Lemma embed_Map_set (m : RuleMap) (k : nat) (v : Rule) :
  embedMap (Map_set m k v) = Nested.Map_set (embedMap m) k (embedRule v).
Proof.
  induction m as [|[k' v'] m IH]; simpl; [reflexivity|].
  destruct (Nat.eqb k' k); simpl; [reflexivity|now rewrite IH].
Qed.

Lemma embed_splits (rule : Rule) :
  splits po rule
  = negb (Nested.skipped o (embedRule rule))
    && match Nested.matched o (embedRule rule) with
       | [] => false
       | _ :: _ => true
       end.
Proof.
  unfold splits, Nested.matched. cbn [Nested.nodes embedRule].
  rewrite embed_matched. f_equal.
  now destruct (matchedDecls po (nodes rule)).
Qed.

(** The hook on a plain rule. *)
Lemma embed_visitRule (st : Store) (rule : Rule) :
  readsBack o rule ->
  Nested.visitRule o (embedStore st) (embedRule rule)
  = (embedStore (fst (visitRule po st rule)),
     embedRule (snd (visitRule po st rule))).
Proof.
  intros Hr. pose proof (embed_splits rule) as Hs.
  destruct (Nested.skipped o (embedRule rule)) eqn:Hk.
  - rewrite (nested_visitRule_skipped o _ _ Hk).
    rewrite (visitRule_skipped po st rule Hk). reflexivity.
  - rewrite (nested_visitRule_unskipped o _ _ Hk).
    destruct (splits po rule) eqn:Hsp.
    + rewrite (visitRule_splits po st rule Hsp). cbn [fst snd].
      destruct (Nested.matched o (embedRule rule)); [discriminate|].
      unfold embedStore. cbn [noWebpRules webpRules fresh].
      rewrite !embed_Map_set, embed_noWebpVariant, embed_webpVariant
        by assumption.
      cbn [Nested.noWebpRules Nested.webpRules Nested.fresh Nested.ref embedRule].
      f_equal. unfold strippedRule.
      change (skipped po rule) with (Nested.skipped o (embedRule rule)).
      rewrite Hk.
      unfold embedRule, Nested.setNodes, setNodes.
      cbn [Nested.ref Nested.selector Nested.nodes ref selector nodes].
      now rewrite embed_kept.
    + rewrite (visitRule_nosplit po st rule Hsp). cbn [fst snd].
      destruct (Nested.matched o (embedRule rule)); [|discriminate].
      f_equal. unfold strippedRule.
      change (skipped po rule) with (Nested.skipped o (embedRule rule)).
      rewrite Hk.
      unfold embedRule, Nested.setNodes, setNodes.
      cbn [Nested.ref Nested.selector Nested.nodes ref selector nodes].
      now rewrite embed_kept.
Qed.

Lemma embed_leaves (ns : list ChildNode) :
  Nested.splitters o (map embedChild ns) = []
  /\ map (Nested.stripNode o) (map embedChild ns) = map embedChild ns
  /\ forall k v,
       flat_map (Nested.afterNode k v) (map embedChild ns)
       = map embedChild ns.
Proof.
  unfold Nested.splitters.
  induction ns as [|[d|text] ns (IH1 & IH2 & IH3)]; simpl;
    (split; [|split]); auto; try (now rewrite IH2);
    intros k v; now rewrite IH3.
Qed.

Lemma embed_refs (root : Root) : Nested.refs (embed root) = refs root.
Proof.
  unfold Nested.refs, Nested.rulesOf, refs, embed. pattern root.
  apply forest_induction with
    (P := fun n =>
            map Nested.ref (Nested.rulesOfNode (embedNode n)) = refsNode n);
    clear root.
  - intros r. cbn [embedNode Nested.rulesOfNode map refsNode].
    assert (H : forall ns, flat_map Nested.rulesOfNode (map embedChild ns) = []).
    { induction ns as [|[d|text] ns IH]; simpl; auto. }
    cbn [Nested.nodes embedRule]. now rewrite H.
  - intros name params children IH. exact IH.
  - intros [d|text]; reflexivity.
  - reflexivity.
  - intros n ns Hn Hns. cbn [map flat_map]. now rewrite map_app, Hn, Hns.
Qed.

Lemma embed_splitters (root : Root) :
  Nested.splitters o (embed root)
  = map embedRule (filter (splits po) (rulesOf root)).
Proof.
  unfold Nested.splitters, rulesOf, embed. pattern root.
  apply forest_induction with
    (P := fun n =>
            Nested.splittersNode o (embedNode n)
            = map embedRule (filter (splits po) (rulesOfNode n)));
    clear root.
  - intros r. cbn [embedNode Nested.splittersNode rulesOfNode filter].
    rewrite embed_splits.
    destruct (Nested.skipped o (embedRule r)).
    + cbn [negb andb map]. apply (embed_leaves (nodes r)).
    + cbn [negb andb]. now destruct (Nested.matched o (embedRule r)).
  - intros name params children IH. exact IH.
  - intros [d|text]; reflexivity.
  - reflexivity.
  - intros n ns Hn Hns. cbn [map flat_map].
    now rewrite filter_app, map_app, Hn, Hns.
Qed.

Lemma embed_strip (root : Root) :
  Nested.strip o (embed root) = embed (map (stripNode po) root).
Proof.
  unfold Nested.strip, embed. pattern root.
  apply forest_induction with
    (P := fun n =>
            Nested.stripNode o (embedNode n) = embedNode (stripNode po n));
    clear root.
  - intros r. cbn [embedNode Nested.stripNode stripNode]. unfold strippedRule.
    change (skipped po r) with (Nested.skipped o (embedRule r)).
    destruct (Nested.skipped o (embedRule r)).
    + cbn [Nested.nodes embedRule].
      destruct (embed_leaves (nodes r)) as (_ & -> & _). reflexivity.
    + unfold embedRule, Nested.setNodes, setNodes.
      cbn [Nested.ref Nested.selector Nested.nodes ref selector nodes].
      now rewrite embed_kept.
  - intros name params children IH.
    cbn [embedNode Nested.stripNode stripNode]. now rewrite IH.
  - intros [d|text]; reflexivity.
  - reflexivity.
  - intros n ns Hn Hns. cbn [map]. now rewrite Hn, Hns.
Qed.

Lemma embed_calls (rules : list Rule) :
  forall st,
    (forall r, In r rules -> readsBack o r) ->
    Nested.calls o (embedStore st) (map embedRule (filter (splits po) rules))
    = embedStore (visitAll po st rules).
Proof.
  induction rules as [|r rules IH]; intros st H; [reflexivity|].
  change (visitAll po st (r :: rules))
    with (visitAll po (fst (visitRule po st r)) rules).
  cbn [filter]. destruct (splits po r) eqn:Hs.
  - cbn [map].
    change (Nested.calls o (embedStore st)
              (embedRule r :: map embedRule (filter (splits po) rules)))
      with (Nested.calls o
              (fst (Nested.visitRule o (embedStore st) (embedRule r)))
              (map embedRule (filter (splits po) rules))).
    rewrite embed_visitRule by (apply H; now left). cbn [fst].
    apply IH. intros r' Hr'. apply H. now right.
  - rewrite (visitRule_nosplit po st r Hs). cbn [fst].
    apply IH. intros r' Hr'. apply H. now right.
Qed.

Lemma embed_after (k : nat) (v : Rule) (root : Root) :
  Nested.after k (embedRule v) (embed root) = embed (after k v root).
Proof.
  unfold Nested.after, after, embed. pattern root.
  apply forest_induction with
    (P := fun n =>
            Nested.afterNode k (embedRule v) (embedNode n)
            = map embedNode (afterNode k v n));
    clear root.
  - intros r. cbn [embedNode Nested.afterNode afterNode].
    cbn [Nested.nodes Nested.ref embedRule].
    destruct (embed_leaves (nodes r)) as (_ & _ & ->).
    destruct (Nat.eqb (ref r) k); reflexivity.
  - intros name params children IH.
    cbn [embedNode Nested.afterNode afterNode map]. now rewrite IH.
  - intros [d|text]; reflexivity.
  - reflexivity.
  - intros n ns Hn Hns. cbn [map flat_map]. now rewrite map_app, Hn, Hns.
Qed.

Lemma embed_fold_after (m : RuleMap) :
  forall root,
    fold_left (fun root '(rule, v) => Nested.after rule v root)
              (embedMap m) (embed root)
    = embed (fold_left (fun root '(rule, v) => after rule v root) m root).
Proof.
  induction m as [|[k v] m IH]; intros root; [reflexivity|].
  cbn [embedMap map fold_left fst snd]. rewrite embed_after. apply IH.
Qed.

Lemma embed_OnceExit (st : Store) (root : Root) :
  Nested.OnceExit (embedStore st) (embed root) = embed (OnceExit st root).
Proof.
  unfold Nested.OnceExit, OnceExit, embedStore.
  cbn [Nested.noWebpRules Nested.webpRules].
  now rewrite !embed_fold_after.
Qed.

(** X17.  On a plain stylesheet, where no rule lies inside a rule, no
    declaration is important and the selector lists read back as they
    were written, the run over the full tree and the run of the plain
    model give the same tree. *)
Theorem transform_of_plain (root : Root) :
  (forall r, In r (rulesOf root) -> readsBack o r) ->
  Nested.transform o (embed root)
  = Some (embed (transform (plainOptions o) root)).
Proof.
  intros H. rewrite transform_strip.
  unfold transform. rewrite walk_spec.
  rewrite embed_splitters, embed_strip, embed_refs.
  change (Nested.mkStore [] [] (S (list_max (refs root))))
    with (embedStore (mkStore [] [] (S (list_max (refs root))))).
  rewrite (embed_calls _ _ H). now rewrite embed_OnceExit.
Qed.

End PlainFacts.

Lemma transform_of_plain_witness :
  Nested.transform Nested.defaults (embed [RuleNode sectionRule])
  = Some (embed (transform (plainOptions Nested.defaults)
                           [RuleNode sectionRule])).
Proof.
  apply transform_of_plain.
  intros r [<-|[]]. split; [reflexivity|discriminate].
Defined.
